(** * shcomplete.seq2seq_correction: synthetic corruption and the fixed-width codec

    A shallow embedding of [shcomplete/seq2seq_correction.py]:
    [get_chars], [create_mistakes], [generate_input], the [Seq2seq]
    transcoder ([encode]/[decode]) and the batch [generator].

    Conventions of the embedding.
    - A Python [str] is the list of its code points ([N]); a character of
      the inventory is one code point.
    - Python exceptions are values of [exn]; a computation that may raise
      returns a [result].
    - [numpy.random] is a global generator: it is threaded explicitly as a
      [RandomState] (a tape of raw draws and a cursor).
    - A numpy array carries its shape next to its cells, as [ndarray.shape]
      does, so that arrays with an empty axis keep their other extents. *)

From Stdlib Require Import QArith Qcanon.
From stdpp Require Import strings numbers sorting gmap sets option list.

Local Open Scope Z_scope.

(** ** The Python runtime the module relies on *)

Inductive exn : Set := KeyError | IndexError | ValueError | AssertionError.

Inductive result (A : Type) : Type :=
  | Ok (a : A)
  | Raise (e : exn).
Arguments Ok {A} a.
Arguments Raise {A} e.

Global Instance exn_eq_dec : EqDecision exn.
Proof. solve_decision. Defined.
Global Instance result_eq_dec `{EqDecision A} : EqDecision (result A).
Proof. solve_decision. Defined.

Global Instance result_ret : MRet result := λ A a, Ok a.
Global Instance result_bind : MBind result := λ A B f m,
  match m with Ok a => f a | Raise e => Raise e end.
Global Instance result_fmap : FMap result := λ A B f m,
  match m with Ok a => Ok (f a) | Raise e => Raise e end.

(** [for x in l: s = body(s, x)] with an exception leaving the loop. *)
Fixpoint for_in {A S : Type} (l : list A) (body : S → A → result S) (s : S)
  : result S :=
  match l with
  | [] => Ok s
  | x :: l' => s' ← body s x; for_in l' body s'
  end.

(** [try: body except KeyError: handler]. *)
Definition try_except_KeyError {A} (body : result A) (handler : result A)
  : result A :=
  match body with
  | Raise KeyError => handler
  | r => r
  end.

(** [assert b]. *)
Definition assert (b : bool) : result unit :=
  if b then Ok () else Raise AssertionError.

(** Code points of a literal, for examples. *)
Fixpoint py (s : string) : list N :=
  match s with
  | EmptyString => []
  | String a s' => Ascii.N_of_ascii a :: py s'
  end.

Definition len {A} (l : list A) : Z := Z.of_nat (length l).

(** [enumerate(l)]. *)
Definition enumerate {A} (l : list A) : list (nat * A) := imap pair l.

(** [range(lo, hi)] over non-negative [lo]. *)
Definition range (lo : nat) (hi : Z) : list nat :=
  seq lo (Z.to_nat (hi - Z.of_nat lo)).

(** [dict(pairs)]: a later pair overrides an earlier one with the same key. *)
Definition dict `{Countable K} {V} (pairs : list (K * V)) : gmap K V :=
  foldl (λ m kv, insert (fst kv) (snd kv) m) ∅ pairs.

(** [d[k]]. *)
Definition dict_getitem `{Countable K} {V} (d : gmap K V) (k : K) : result V :=
  match d !! k with
  | Some v => Ok v
  | None => Raise KeyError
  end.

(** [l[i]] for a non-negative index. *)
Definition list_getitem {A} (l : list A) (i : nat) : result A :=
  match l !! i with
  | Some x => Ok x
  | None => Raise IndexError
  end.

(** [s * n] on strings: the empty string when [n <= 0]. *)
Definition str_mul (s : list N) (n : Z) : list N :=
  mjoin (replicate (Z.to_nat n) s).

(** [str.isspace] on one code point (the Unicode whitespace of CPython). *)
Definition isspace (c : N) : bool :=
  ((9 <=? c) && (c <=? 13) || (28 <=? c) && (c <=? 32)
   || (c =? 133) || (c =? 160) || (c =? 5760)
   || (8192 <=? c) && (c <=? 8202)
   || (c =? 8232) || (c =? 8233) || (c =? 8239) || (c =? 8287)
   || (c =? 12288))%N.

Fixpoint lstrip (s : list N) : list N :=
  match s with
  | [] => []
  | c :: s' => if isspace c then lstrip s' else s
  end.

Definition rstrip (s : list N) : list N := reverse (lstrip (reverse s)).

Definition strip (s : list N) : list N := rstrip (lstrip s).

(** The lines of a text file opened in text mode, as [f.readlines()] and
    [for line in f] yield them: each line keeps its terminating newline,
    and only the last line may lack one.  [text] is the decoded content,
    after the translation of line endings to a single newline character. *)
Fixpoint readlines (text : list N) : list (list N) :=
  match text with
  | [] => []
  | c :: rest =>
      if (c =? 10)%N then [c] :: readlines rest
      else match readlines rest with
           | [] => [[c]]
           | line :: lines => (c :: line) :: lines
           end
  end.

(** [sorted(set(l))].  The iteration order of the set does not matter to
    the result (lemma [sorted_set_iteration_irrelevant] below), so the set
    is iterated in the order of [elements]. *)
Definition sorted (l : list N) : list N := merge_sort N.le l.

Definition set (l : list N) : gset N := list_to_set l.

(** ** numpy arrays *)

(** A boolean array of shape [(d0, d1, d2)]. *)
Record ndarray3 : Type := mk_ndarray3 {
  shape3 : nat * nat * nat;
  data3 : list (list (list bool))
}.

(** A boolean array of shape [(d0, d1)], such as one row [X[i]]. *)
Record ndarray2 : Type := mk_ndarray2 {
  shape2 : nat * nat;
  data2 : list (list bool)
}.

Global Instance ndarray3_eq_dec : EqDecision ndarray3.
Proof. solve_decision. Defined.
Global Instance ndarray2_eq_dec : EqDecision ndarray2.
Proof. solve_decision. Defined.

Module np.

(** [np.zeros((d0, d1, d2), dtype=np.bool)]; a negative extent is a
    [ValueError].  [d0] and [d2] are lengths, hence naturals. *)
Definition zeros (d0 : nat) (d1 : Z) (d2 : nat) : result ndarray3 :=
  if decide (d1 < 0) then Raise ValueError
  else
    let m := Z.to_nat d1 in
    Ok (mk_ndarray3 (d0, m, d2) (replicate d0 (replicate m (replicate d2 false)))).

(** [X[i, j, k] = 1] with non-negative indices: an index outside the
    shape is an [IndexError]. *)
Definition setitem (X : ndarray3) (i j k : nat) : result ndarray3 :=
  let '(d0, d1, d2) := shape3 X in
  if decide (i < d0 ∧ j < d1 ∧ k < d2)%nat
  then Ok (mk_ndarray3 (shape3 X) (alter (alter (<[k := true]>) j) i (data3 X)))
  else Raise IndexError.

(** [X[i]] on a three-dimensional array, [i] non-negative. *)
Definition getitem (X : ndarray3) (i : nat) : result ndarray2 :=
  match data3 X !! i with
  | Some row => Ok (mk_ndarray2 (snd (fst (shape3 X)), snd (shape3 X)) row)
  | None => Raise IndexError
  end.

(** Index of the first maximum of a non-empty vector ([True > False]). *)
Fixpoint argmax_from (best_i : nat) (best : bool) (i : nat) (v : list bool)
  : nat :=
  match v with
  | [] => best_i
  | x :: v' =>
      if negb best && x then argmax_from i x (S i) v'
      else argmax_from best_i best (S i) v'
  end.

Definition argmax1 (v : list bool) : nat :=
  match v with
  | [] => 0%nat
  | x :: v' => argmax_from 0 x 1 v'
  end.

(** [X.argmax(axis=-1)] on a two-dimensional array: an empty last axis
    is a [ValueError] ("attempt to get argmax of an empty sequence"). *)
Definition argmax (X : ndarray2) : result (list nat) :=
  if decide (snd (shape2 X) = 0%nat) then Raise ValueError
  else Ok (argmax1 <$> data2 X).

(** [np.nonzero(X)] on a one-dimensional integer array: the positions of
    the non-zero entries, in increasing order. *)
Definition nonzero (X : list nat) : list nat :=
  fst <$> filter (λ ix, snd ix ≠ 0%nat) (enumerate X).

(** [np.amax] / [np.amin]: an empty array is a [ValueError] ("zero-size
    array to reduction operation ... which has no identity"). *)
Definition amax (l : list nat) : result nat :=
  match l with
  | [] => Raise ValueError
  | x :: l' => Ok (foldl Nat.max x l')
  end.

Definition amin (l : list nat) : result nat :=
  match l with
  | [] => Raise ValueError
  | x :: l' => Ok (foldl Nat.min x l')
  end.

End np.

(** ** The Seq2seq transcoder *)

Record Seq2seq : Type := mk_Seq2seq {
  chars : list N;
  char_indices : gmap N nat;
  indices_char : gmap nat N
}.

(** [Seq2seq.__init__]. *)
Definition Seq2seq_init (chars : list N) : Seq2seq :=
  let chars := sorted (elements (set chars)) in
  {| chars := chars;
     char_indices := dict ((λ ic, (ic.2, ic.1)) <$> enumerate chars);
     indices_char := dict (enumerate chars) |}.

(** The [try] block of [encode], run at sample [i] on the pair
    [(j, char)] of the inner [enumerate]. *)
Definition encode_char (self : Seq2seq) (i : nat) (X : ndarray3)
    (jchar : nat * N) : result ndarray3 :=
  try_except_KeyError
    (k ← dict_getitem (char_indices self) jchar.2;
     np.setitem X i jchar.1 k)
    (Ok X).

(** The inner loop of [encode], run on the pair [(i, cmd)] of the outer
    [enumerate]. *)
Definition encode_cmd (self : Seq2seq) (X : ndarray3) (icmd : nat * list N)
  : result ndarray3 :=
  for_in (enumerate icmd.2) (encode_char self icmd.1) X.

(** [Seq2seq.encode]. *)
Definition encode (self : Seq2seq) (commands : list (list N)) (max_cmd_len : Z)
  : result ndarray3 :=
  X ← np.zeros (length commands) max_cmd_len (length (chars self));
  for_in (enumerate commands) (encode_cmd self) X.

(** The array [decode] receives: a two-dimensional score or one-hot row
    when [reduction] is true, a one-dimensional array of class indices
    when it is false. *)
Definition decode_arg (reduction : bool) : Type :=
  if reduction then ndarray2 else list nat.

(** The loop [for i in idx: command += self.indices_char[X[i]]]. *)
Definition decode_loop (self : Seq2seq) (X : list nat) (idx : list nat)
  : result (list N) :=
  for_in idx (λ command i,
    x ← list_getitem X i;
    c ← dict_getitem (indices_char self) x;
    Ok (command ++ [c])) [].

(** [Seq2seq.decode].  [reduction] comes before [X] because it decides
    what kind of array [X] is. *)
Definition decode (self : Seq2seq) (reduction : bool) (X : decode_arg reduction)
    (max_cmd_len : Z) (inverted : bool) : result (list N) :=
  match reduction return decode_arg reduction → result (list N) with
  | true => λ X,
      X ← np.argmax X;
      if inverted then
        begin_of_command ← np.amin (np.nonzero X);
        decode_loop self X (range begin_of_command max_cmd_len)
      else
        end_of_command ← np.amax (np.nonzero X);
        decode_loop self X (range 0 (Z.of_nat end_of_command + 1))
  | false => λ X,
      if decide (length (np.nonzero X) ≠ 0%nat) then
        end_of_command ← np.amax (np.nonzero X);
        decode_loop self X (range 0 (Z.of_nat end_of_command + 1))
      else Ok []
  end X.

(** ** numpy.random *)

(** The state of the global generator: a tape of raw draws and the
    position of the next one. *)
Record RandomState : Type := mk_RandomState {
  tape : nat → N;
  cursor : nat
}.

(** A computation that draws random numbers and may raise. *)
Definition Rand (A : Type) : Type := RandomState → result (A * RandomState).

Global Instance Rand_ret : MRet Rand := λ A a rs, Ok (a, rs).
Global Instance Rand_bind : MBind Rand := λ A B f m rs,
  match m rs with
  | Ok (a, rs') => f a rs'
  | Raise e => Raise e
  end.

Definition lift {A} (r : result A) : Rand A := λ rs,
  match r with
  | Ok a => Ok (a, rs)
  | Raise e => Raise e
  end.

Definition next_raw : Rand N := λ rs,
  Ok (tape rs (cursor rs), mk_RandomState (tape rs) (S (cursor rs))).

(** [for _ in range(n): acc = body(acc)]. *)
Fixpoint for_range {S} (n : nat) (body : S → Rand S) (acc : S) : Rand S :=
  match n with
  | O => mret acc
  | S n' => acc' ← body acc; for_range n' body acc'
  end.

Module random.

(** [randint(high)]: an integer of [[0, high)]; [ValueError] when the
    range is empty ("low >= high"). *)
Definition randint (high : Z) : Rand nat :=
  if decide (high ≤ 0) then lift (Raise ValueError)
  else raw ← next_raw; mret (N.to_nat (raw mod Z.to_N high)).

(** [rand()]: a float of [[0, 1)], a multiple of 2^-53. *)
Definition rand : Rand Qc :=
  raw ← next_raw;
  mret (Q2Qc (Qmake (Z.of_N (raw mod 9007199254740992)) 9007199254740992)).

(** [choice(a)] on a list: one element, at an index of
    [[0, len(a))]; [ValueError] on an empty list. *)
Definition choice {A} (a : list A) : Rand A :=
  i ← randint (len a); lift (list_getitem a i).

End random.

(** ** Mistake injection *)

Definition mistakes : gmap nat string :=
  dict [(0%nat, "swap"); (1%nat, "delition"); (2%nat, "addition");
        (3%nat, "transposition")]%string.

(** [create_mistakes].  [vocab_trie command] stands for
    [vocab_trie.longest_prefix(command)[0]], the trie being built
    elsewhere.  Slices never raise; the two plain subscripts of the
    transposition do. *)
Definition create_mistakes (chars : list N) (command : list N)
    (vocab_trie : list N → option (list N)) (level_of_noise : Qc)
  : Rand (list N) :=
  ind ← random.randint (Z.of_nat (size mistakes));
  match vocab_trie command with
  | None => mret command
  | Some prefix =>
      u ← random.rand;
      if decide (u < level_of_noise)%Qc then
        char_pos ← random.randint (len prefix);
        kind ← lift (dict_getitem mistakes ind);
        if String.eqb kind "swap" then
          c ← random.choice chars;
          mret (take char_pos command ++ [c] ++ drop (char_pos + 1) command)
        else if String.eqb kind "delition" then
          mret (take char_pos command ++ drop (char_pos + 1) command)
        else if String.eqb kind "addition" then
          c ← random.choice chars;
          mret (take char_pos command ++ [c] ++ drop char_pos command)
        else if String.eqb kind "transposition" then
          char_pos ← random.randint (len command - 1);
          right ← lift (list_getitem command (char_pos + 1));
          left ← lift (list_getitem command char_pos);
          mret (take char_pos command ++ [right] ++ [left]
                ++ drop (char_pos + 2) command)
        else mret command
      else mret command
  end.

(** ** The batch generator *)

Module Config.
(** The keys of [gConfig] the generator reads. *)
Record t : Type := mk {
  max_cmd_len : Z;
  padding : list N;
  level_of_noise : Qc;
  batch_size : Z;
  inverted : bool
}.
End Config.

(** [generate_input]. *)
Definition generate_input (chars : list N) (command : list N)
    (vocab_trie : list N → option (list N)) (gConfig : Config.t)
  : Rand (list N * list N) :=
  misspelled_command ←
    create_mistakes chars command vocab_trie (Config.level_of_noise gConfig);
  let misspelled_command :=
    misspelled_command
    ++ str_mul (Config.padding gConfig)
         (Config.max_cmd_len gConfig - len misspelled_command) in
  let command :=
    command
    ++ str_mul (Config.padding gConfig)
         (Config.max_cmd_len gConfig - len command) in
  mret (misspelled_command, command).

(** The list comprehension that filters the corpus, on the content
    [corpus] of the file. *)
Definition corpus_lines (corpus : list N) (file_delimiter : list N)
    (gConfig : Config.t) : list (list N) :=
  strip <$>
    filter (λ cmd, cmd ≠ file_delimiter ∧ len cmd ≤ Config.max_cmd_len gConfig)
      (readlines corpus).

(** One turn of [for _ in range(gConfig["batch_size"])], on the buffers
    [(commands, misspelled_commands)]. *)
Definition generator_sample (chars : list N) (lines : list (list N))
    (vocab_trie : list N → option (list N)) (gConfig : Config.t)
    (buffers : list (list N) * list (list N))
  : Rand (list (list N) * list (list N)) :=
  command ← random.choice lines;
  pair ← generate_input chars command vocab_trie gConfig;
  let misspelled_command := pair.1 in
  let command := pair.2 in
  let commands := buffers.1 ++ [command] in
  _ ← lift (assert (bool_decide (len command = Config.max_cmd_len gConfig)));
  let misspelled_command :=
    if Config.inverted gConfig then reverse misspelled_command
    else misspelled_command in
  mret (commands, buffers.2 ++ [misspelled_command]).

(** One turn of [while True], up to its [yield]: the buffers are empty
    when it starts. *)
Definition generator_iteration (seq2seq : Seq2seq) (chars : list N)
    (corpus : list N) (file_delimiter : list N)
    (vocab_trie : list N → option (list N)) (gConfig : Config.t)
  : Rand (ndarray3 * ndarray3) :=
  let lines := corpus_lines corpus file_delimiter gConfig in
  buffers ← for_range (Z.to_nat (Config.batch_size gConfig))
               (generator_sample chars lines vocab_trie gConfig) ([], []);
  let commands := buffers.1 in
  let misspelled_commands := buffers.2 in
  _ ← lift (assert (bool_decide (len commands = len misspelled_commands)));
  _ ← lift (assert (bool_decide (len commands = Config.batch_size gConfig)));
  X ← lift (encode seq2seq misspelled_commands (Config.max_cmd_len gConfig));
  y ← lift (encode seq2seq commands (Config.max_cmd_len gConfig));
  mret (X, y).

(** The first [n] pairs the generator yields.  [corpus t] is the content
    of the corpus file when iteration [t] opens it. *)
Fixpoint generator_loop (seq2seq : Seq2seq) (chars : list N)
    (corpus : nat → list N) (file_delimiter : list N)
    (vocab_trie : list N → option (list N)) (gConfig : Config.t)
    (t n : nat) : Rand (list (ndarray3 * ndarray3)) :=
  match n with
  | O => mret []
  | S n' =>
      Xy ← generator_iteration seq2seq chars (corpus t) file_delimiter
              vocab_trie gConfig;
      rest ← generator_loop seq2seq chars corpus file_delimiter vocab_trie
               gConfig (S t) n';
      mret (Xy :: rest)
  end.

(** [generator], pulled [n] times. *)
Definition generator (chars : list N) (corpus : nat → list N)
    (file_delimiter : list N) (vocab_trie : list N → option (list N))
    (gConfig : Config.t) (n : nat) : Rand (list (ndarray3 * ndarray3)) :=
  let seq2seq := Seq2seq_init chars in
  generator_loop seq2seq chars corpus file_delimiter vocab_trie gConfig 0 n.

(** ** The character inventory *)

(** [get_chars], on the content [vocab] of the vocabulary file.
    [list_of_set] is [list(chars)]: the order in which Python iterates
    over a set is not specified by the language. *)
Definition get_chars (list_of_set : gset N → list N) (vocab : list N)
  : list N :=
  let chars :=
    foldl (λ (chars : gset N) line, chars ∪ set (rstrip line)) ∅
      (readlines vocab) in
  list_of_set chars.

(** An order of iteration lists the elements of the set, each once. *)
Definition set_iteration (list_of_set : gset N → list N) : Prop :=
  ∀ s, list_of_set s ≡ₚ elements s.

(** ** Sampling predictions *)

(** [X[np.array([ind])]]: the array made of row [ind] alone. *)
Definition fancy_index (X : ndarray3) (ind : nat) : result ndarray3 :=
  match data3 X !! ind with
  | Some row => Ok (mk_ndarray3 (1%nat, (shape3 X).1.2, (shape3 X).2) [row])
  | None => Raise IndexError
  end.

(** How a call of [sample_prediction] ends: it returns, it raises one of
    the exceptions of [exn], or it raises the [UnboundLocalError] of a
    local variable read before any assignment. *)
Inductive outcome (A : Type) : Type :=
  | Returns (a : A)
  | Raises (e : exn)
  | RaisesUnboundLocalError.
Arguments Returns {A} a.
Arguments Raises {A} e.
Arguments RaisesUnboundLocalError {A}.

(** The local variables of [sample_prediction] that outlive a turn of its
    loop; [None] while unassigned. *)
Record locals : Type := mk_locals {
  var_misspelled_command : option (list N);
  var_model_correction : option (list N)
}.

(** [print(label, value)]: one line, the arguments separated by a blank. *)
Definition print2 (label value : list N) : list N := label ++ [32%N] ++ value.

(** The statements of a turn of the loop of [sample_prediction] up to the
    [if]: the sampled input row, the true command and the correction.
    [model rowX] stands for [model.predict_classes(rowX)]. *)
Definition sample_prediction_draw (model : ndarray3 → result (list (list nat)))
    (seq2seq : Seq2seq) (X y : ndarray3) (max_cmd_len : Z)
  : Rand (ndarray3 * list N * list N) :=
  ind ← random.randint (Z.of_nat (shape3 X).1.1);
  rowX ← lift (fancy_index X ind);
  rowy ← lift (fancy_index y ind);
  preds ← lift (model rowX);
  rowy0 ← lift (np.getitem rowy 0);
  true_command ← lift (decode seq2seq true rowy0 max_cmd_len false);
  preds0 ← lift (list_getitem preds 0);
  model_correction ← lift (decode seq2seq false preds0 max_cmd_len false);
  mret (rowX, true_command, model_correction).

(** One turn of the loop of [sample_prediction], on the local variables,
    the lines printed so far and the random generator. *)
Definition sample_prediction_turn
    (model : ndarray3 → result (list (list nat))) (seq2seq : Seq2seq)
    (X y : ndarray3) (max_cmd_len : Z) (inverted : bool)
    (st : locals * list (list N) * RandomState)
  : outcome (locals * list (list N) * RandomState) :=
  let '(vars, out, rs) := st in
  match sample_prediction_draw model seq2seq X y max_cmd_len rs with
  | Raise e => Raises e
  | Ok ((rowX, true_command, model_correction), rs') =>
      let vars :=
        mk_locals (var_misspelled_command vars) (Some model_correction) in
      let shown :=
        if inverted then
          match (rowX0 ← np.getitem rowX 0;
                 decode seq2seq true rowX0 max_cmd_len inverted) with
          | Raise e => Raises e
          | Ok misspelled_command =>
              Returns
                (mk_locals (Some misspelled_command)
                   (var_model_correction vars),
                 out ++ [print2 (py "Command misspelled :")
                           (reverse misspelled_command)])
          end
        else
          match var_misspelled_command vars with
          | None => RaisesUnboundLocalError
          | Some misspelled_command =>
              Returns (vars, out ++ [print2 (py "Q :") misspelled_command])
          end in
      match shown with
      | Returns (vars, out) =>
          Returns (vars,
                   out ++ [print2 (py "True command :") true_command;
                           print2 (py "Correction predicted :")
                             model_correction;
                           py "---"],
                   rs')
      | Raises e => Raises e
      | RaisesUnboundLocalError => RaisesUnboundLocalError
      end
  end.

(** [for _ in range(n)] over the turns. *)
Fixpoint sample_prediction_loop
    (model : ndarray3 → result (list (list nat))) (seq2seq : Seq2seq)
    (X y : ndarray3) (max_cmd_len : Z) (inverted : bool) (n : nat)
    (st : locals * list (list N) * RandomState)
  : outcome (locals * list (list N) * RandomState) :=
  match n with
  | O => Returns st
  | S n' =>
      match sample_prediction_turn model seq2seq X y max_cmd_len inverted st with
      | Returns st' =>
          sample_prediction_loop model seq2seq X y max_cmd_len inverted n' st'
      | Raises e => Raises e
      | RaisesUnboundLocalError => RaisesUnboundLocalError
      end
  end.

(** [sample_prediction]: the correction returned, with the lines printed
    and the state of the random generator. *)
Definition sample_prediction (model : ndarray3 → result (list (list nat)))
    (chars : list N) (X y : ndarray3) (max_cmd_len : Z) (inverted : bool)
    (rs : RandomState) : outcome (list N * list (list N) * RandomState) :=
  let seq2seq := Seq2seq_init chars in
  match sample_prediction_loop model seq2seq X y max_cmd_len inverted 10
          (mk_locals None None, [[]], rs) with
  | Returns (vars, out, rs') =>
      match var_model_correction vars with
      | Some model_correction => Returns (model_correction, out, rs')
      | None => RaisesUnboundLocalError
      end
  | Raises e => Raises e
  | RaisesUnboundLocalError => RaisesUnboundLocalError
  end.

(** ** Specification devices *)

(** [tabulate n f] is the list [[f 0; ...; f (n-1)]]. *)
Definition tabulate {A} (n : nat) (f : nat → A) : list A := f <$> seq 0 n.

(** The array of shape [sh] whose cell [(i, j, k)] is [f i j k]. *)
Definition tensor_of (sh : nat * nat * nat) (f : nat → nat → nat → bool)
  : ndarray3 :=
  mk_ndarray3 sh
    (tabulate sh.1.1 (λ i, tabulate sh.1.2 (λ j, tabulate sh.2 (f i j)))).

(** The slot [X[i, j, :]], when [(i, j)] is inside the array. *)
Definition slot (X : ndarray3) (i j : nat) : option (list bool) :=
  row ← data3 X !! i; row !! j.

(** The vector of length [n] that is zero everywhere / one at [k] only. *)
Definition all_zero (n : nat) : list bool := replicate n false.
Definition one_hot (n k : nat) : list bool := <[k := true]> (replicate n false).

(** Every character of the batch that belongs to the inventory sits at a
    position below [max_cmd_len]. *)
Definition fits (chars : list N) (commands : list (list N)) (max_cmd_len : Z)
  : Prop :=
  ∀ i cmd j c, commands !! i = Some cmd → cmd !! j = Some c → c ∈ chars →
    Z.of_nat j < max_cmd_len.

(** The generator state whose next raw draws are [draws] (and 0 after
    them). *)
Definition tape_of (draws : list N) : RandomState :=
  mk_RandomState (λ i, default 0%N (draws !! i)) 0.

(** The generator state after one draw. *)
Definition advance (rs : RandomState) : RandomState :=
  mk_RandomState (tape rs) (S (cursor rs)).

(** The float [rand()] makes of a raw draw. *)
Definition noise_of (raw : N) : Qc :=
  Q2Qc (Qmake (Z.of_N (raw mod 9007199254740992)) 9007199254740992).

(** What the first two draws of [create_mistakes] come to at [rs]: the
    key of the mistake kind, and the float compared with the noise. *)
Definition drawn_kind (rs : RandomState) : nat :=
  N.to_nat (tape rs (cursor rs) mod 4).
Definition drawn_noise (rs : RandomState) : Qc :=
  noise_of (tape rs (S (cursor rs))).

(** [create_mistakes] can return [result] on a run where a mistake of the
    kind with key [kind] is applied (the prefix is found and the draw is
    below the level of noise). *)
Definition may_return (chars : list N) (command : list N)
    (vocab_trie : list N → option (list N)) (level_of_noise : Qc)
    (kind : nat) (result : list N) : Prop :=
  ∃ rs rs', drawn_kind rs = kind
            ∧ (drawn_noise rs < level_of_noise)%Qc
            ∧ create_mistakes chars command vocab_trie level_of_noise rs
              = Ok (result, rs').

(** The cells of [X] fill its shape. *)
Definition well_shaped (X : ndarray3) : Prop :=
  length (data3 X) = (shape3 X).1.1
  ∧ Forall (λ row, length row = (shape3 X).1.2
                   ∧ Forall (λ slot, length slot = (shape3 X).2) row)
      (data3 X).

(** What a finished computation returned, without the generator state. *)
Definition value {A} (r : result (A * RandomState)) : result A := fst <$> r.

(** The class index a position of [s] collapses to under [argmax]: the
    inventory index of its character, and 0 for an empty slot. *)
Definition code_of (self : Seq2seq) (s : list N) (j : nat) : nat :=
  default 0%nat (c ← s !! j; char_indices self !! c).

(** The row [encode] produces for a single string, decoded again. *)
Definition roundtrip (self : Seq2seq) (s : list N) (max_cmd_len : Z)
    (inverted : bool) : result (list N) :=
  X ← encode self [s] max_cmd_len;
  row ← np.getitem X 0;
  decode self true row max_cmd_len inverted.

(** The all-zero row of shape [(n, k)]. *)
Definition zero_row (n k : nat) : ndarray2 :=
  mk_ndarray2 (n, k) (replicate n (replicate k false)).

(** A character the decoder cannot tell from an empty slot: one outside
    the inventory, or the first character of the inventory. *)
Definition blank (self : Seq2seq) (c : N) : Prop :=
  default 0%nat (char_indices self !! c) = 0%nat.

(** The class index of a character: its inventory index, 0 when it has
    none. *)
Definition class_of (self : Seq2seq) (c : N) : nat :=
  default 0%nat (char_indices self !! c).

(** [s] padded on the right to [max_cmd_len], as [generate_input] does. *)
Definition pad_to (gConfig : Config.t) (s : list N) : list N :=
  s ++ str_mul (Config.padding gConfig) (Config.max_cmd_len gConfig - len s).

(** The pair (true command, misspelled command) that one turn of the
    sampling loop can add to the buffers: a line of [lines], padded, and
    a corruption of that line, padded and possibly reversed. *)
Definition sample_of (chars : list N) (lines : list (list N))
    (vocab_trie : list N → option (list N)) (gConfig : Config.t)
    (cm : list N * list N) : Prop :=
  ∃ line corrupted rs,
    line ∈ lines
    ∧ value (create_mistakes chars line vocab_trie
               (Config.level_of_noise gConfig) rs) = Ok corrupted
    ∧ cm.1 = pad_to gConfig line
    ∧ cm.2 = (if Config.inverted gConfig
              then reverse (pad_to gConfig corrupted)
              else pad_to gConfig corrupted)
    ∧ len (pad_to gConfig line) = Config.max_cmd_len gConfig.

(** ** Facts about the runtime *)

Section runtime_facts.

Lemma enumerate_lookup {A} (l : list A) i :
  enumerate l !! i = pair i <$> l !! i.
Proof. apply list_lookup_imap. Qed.

Lemma elem_of_enumerate {A} (l : list A) i x :
  (i, x) ∈ enumerate l ↔ l !! i = Some x.
Proof.
  rewrite list_elem_of_lookup. split.
  - intros [n Hn]. rewrite enumerate_lookup in Hn.
    destruct (l !! n) eqn:E; simplify_eq/=. done.
  - intros H. exists i. by rewrite enumerate_lookup, H.
Qed.

Lemma enumerate_fst {A} (l : list A) : (enumerate l).*1 = seq 0 (length l).
Proof.
  apply list_eq; intros i. rewrite list_lookup_fmap, enumerate_lookup.
  destruct (l !! i) eqn:E; simpl.
  - symmetry. apply lookup_seq. split; [done|]. by eapply lookup_lt_Some.
  - symmetry. apply lookup_seq_ge. by apply lookup_ge_None.
Qed.

Lemma enumerate_snd {A} (l : list A) : (enumerate l).*2 = l.
Proof.
  apply list_eq; intros i. rewrite list_lookup_fmap, enumerate_lookup.
  by destruct (l !! i).
Qed.

Lemma enumerate_swap_fst {A} (l : list A) :
  ((λ ic : nat * A, (ic.2, ic.1)) <$> enumerate l).*1 = l.
Proof.
  apply list_eq; intros i.
  rewrite !list_lookup_fmap, enumerate_lookup. by destruct (l !! i).
Qed.

Lemma enumerate_app {A} (l k : list A) :
  enumerate (l ++ k) = enumerate l ++ (prod_map (plus (length l)) id <$> enumerate k).
Proof.
  apply list_eq; intros i.
  rewrite enumerate_lookup, !lookup_app, list_lookup_fmap, !enumerate_lookup.
  destruct (l !! i) eqn:E; simpl; [done|].
  apply lookup_ge_None in E.
  replace (length (enumerate l)) with (length l)
    by (unfold enumerate; by rewrite length_imap).
  destruct (k !! (i - length l)%nat); simpl; [|done].
  unfold prod_map; simpl. do 2 f_equal. lia.
Qed.

(** With distinct keys, [dict] holds exactly the listed pairs. *)
Lemma dict_lookup_Some `{Countable K} {V} (pairs : list (K * V)) k v :
  NoDup pairs.*1 → dict pairs !! k = Some v ↔ (k, v) ∈ pairs.
Proof.
  unfold dict. intros Hnd.
  assert (G : ∀ m : gmap K V,
              (foldl (λ m kv, insert (fst kv) (snd kv) m) m pairs) !! k = Some v
              ↔ (k, v) ∈ pairs ∨ ((k ∉ pairs.*1) ∧ m !! k = Some v)).
  { induction pairs as [|[k' v'] pairs IH]; intros m; simpl.
    - split; [intros ?; right; split; [apply not_elem_of_nil|done]|].
      intros [Hin|[_ ?]]; [by apply elem_of_nil in Hin|done].
    - rewrite fmap_cons, NoDup_cons in Hnd. destruct Hnd as [Hk' Hnd].
      rewrite (IH Hnd). simpl in *.
      rewrite elem_of_cons, not_elem_of_cons. split.
      + intros [?|[Hk Hm]]; [by left; right|].
        destruct (decide (k' = k)) as [->|Hne].
        * rewrite lookup_insert_eq in Hm. simplify_eq. by left; left.
        * rewrite lookup_insert_ne in Hm by done. right. split; [|done].
          split; [congruence|done].
      + intros [[?|?]|[[Hne Hk] Hm]]; simplify_eq/=.
        * right. split; [done|]. by rewrite lookup_insert_eq.
        * by left.
        * right. split; [done|]. by rewrite lookup_insert_ne. }
  rewrite G. split; [|by left].
  intros [?|[_ Hm]]; [done|]. by rewrite lookup_empty in Hm.
Qed.

Lemma bind_Ok {A B} (a : A) (f : A → result B) : Ok a ≫= f = f a.
Proof. done. Qed.

Lemma bind_Raise {A B} (e : exn) (f : A → result B) :
  (Raise e : result A) ≫= f = Raise e.
Proof. done. Qed.

Lemma for_in_app {A S} (l k : list A) (body : S → A → result S) s :
  for_in (l ++ k) body s = s' ← for_in l body s; for_in k body s'.
Proof.
  revert s. induction l as [|x l IH]; intros s; simpl; [done|].
  destruct (body s x); simpl; [apply IH|done].
Qed.

End runtime_facts.

(** ** The inventory of a codec *)

Section inventory.
Context (chars0 : list N).
Local Abbreviation self := (Seq2seq_init chars0).

Lemma sorted_StronglySorted (l : list N) : StronglySorted N.le (sorted l).
Proof. apply (StronglySorted_merge_sort _). Qed.

Lemma sorted_Permutation (l : list N) : sorted l ≡ₚ l.
Proof. apply merge_sort_Permutation. Qed.

(** Sorting forgets the order in which the set was iterated. *)
Lemma sorted_set_iteration_irrelevant (s : gset N) (l : list N) :
  l ≡ₚ elements s → sorted l = sorted (elements s).
Proof.
  intros Hl. apply (StronglySorted_unique N.le); try apply sorted_StronglySorted.
  by rewrite !sorted_Permutation.
Qed.

Lemma chars_NoDup : NoDup (chars self).
Proof. simpl. rewrite sorted_Permutation. apply NoDup_elements. Qed.

Lemma elem_of_chars c : c ∈ chars self ↔ c ∈ chars0.
Proof.
  simpl. rewrite sorted_Permutation, elem_of_elements.
  unfold set. by rewrite elem_of_list_to_set.
Qed.

(** The inventory is strictly increasing: sorted and without duplicates. *)
Lemma chars_strictly_sorted : StronglySorted N.lt (chars self).
Proof.
  pose proof chars_NoDup as Hnd.
  pose proof (sorted_StronglySorted (elements (set chars0))) as Hs.
  simpl in *. induction Hs as [|x l Hl IH Hx]; [constructor|].
  apply NoDup_cons in Hnd as [Hx' Hnd]. constructor; [by apply IH|].
  rewrite Forall_forall in *. intros y Hy. specialize (Hx y Hy).
  assert (x ≠ y) by (intros ->; done). lia.
Qed.

Lemma char_indices_lookup c k :
  char_indices self !! c = Some k ↔ chars self !! k = Some c.
Proof.
  unfold char_indices, Seq2seq_init. rewrite dict_lookup_Some.
  - rewrite list_elem_of_fmap. split.
    + intros [[i x] [? Hin]]; simplify_eq/=. by apply elem_of_enumerate.
    + intros Hk. exists (k, c). split; [done|]. by apply elem_of_enumerate.
  - rewrite enumerate_swap_fst. apply chars_NoDup.
Qed.

Lemma indices_char_lookup k : indices_char self !! k = chars self !! k.
Proof.
  apply option_eq; intros c. unfold indices_char, Seq2seq_init.
  rewrite dict_lookup_Some.
  - apply elem_of_enumerate.
  - rewrite enumerate_fst. apply NoDup_seq.
Qed.

Lemma char_indices_lt c k :
  char_indices self !! c = Some k → (k < length (chars self))%nat.
Proof. rewrite char_indices_lookup. apply lookup_lt_Some. Qed.

Lemma char_indices_is_Some c :
  is_Some (char_indices self !! c) ↔ c ∈ chars0.
Proof.
  rewrite <-elem_of_chars, list_elem_of_lookup. unfold is_Some.
  by setoid_rewrite char_indices_lookup.
Qed.

Lemma char_indices_None c :
  char_indices self !! c = None ↔ c ∉ chars0.
Proof. rewrite <-char_indices_is_Some, eq_None_not_Some. done. Qed.

(** The codec is a function of the set of the characters it is given. *)
Lemma Seq2seq_init_ext (chars1 chars2 : list N) :
  (∀ c, c ∈ chars1 ↔ c ∈ chars2) → Seq2seq_init chars1 = Seq2seq_init chars2.
Proof.
  intros Hset. unfold Seq2seq_init.
  assert (set chars1 = set chars2) as ->; [|done].
  apply set_eq. intros c. unfold set. by rewrite !elem_of_list_to_set.
Qed.

Lemma inventory_Permutation (l : list N) :
  NoDup l → chars (Seq2seq_init l) ≡ₚ l.
Proof.
  intros Hnd. unfold Seq2seq_init; simpl.
  rewrite sorted_Permutation. unfold set. by apply elements_list_to_set.
Qed.

Lemma alphabet_size :
  length (chars self) = size (set chars0).
Proof.
  unfold Seq2seq_init; simpl. by rewrite sorted_Permutation.
Qed.

End inventory.

(** ** Arrays written cell by cell *)

Section tensor.

Lemma lookup_tabulate {A} n (f : nat → A) i :
  tabulate n f !! i = if decide (i < n)%nat then Some (f i) else None.
Proof.
  unfold tabulate. rewrite list_lookup_fmap. case_decide.
  - by rewrite lookup_seq_lt.
  - rewrite lookup_seq_ge by lia. done.
Qed.

Lemma length_tabulate {A} n (f : nat → A) : length (tabulate n f) = n.
Proof. unfold tabulate. by rewrite length_fmap, length_seq. Qed.

Lemma tabulate_ext {A} n (f g : nat → A) :
  (∀ i, (i < n)%nat → f i = g i) → tabulate n f = tabulate n g.
Proof.
  intros Hfg. apply list_eq; intros i. rewrite !lookup_tabulate.
  case_decide; [|done]. by rewrite Hfg.
Qed.

Lemma replicate_tabulate {A} n (x : A) : replicate n x = tabulate n (λ _, x).
Proof.
  apply list_eq; intros i. rewrite lookup_tabulate. case_decide.
  - by apply lookup_replicate_2.
  - apply lookup_replicate_None. lia.
Qed.

Lemma alter_tabulate {A} (h : A → A) n (f : nat → A) i :
  alter h i (tabulate n f)
  = tabulate n (λ i', if decide (i' = i) then h (f i') else f i').
Proof.
  apply list_eq; intros i'. rewrite lookup_tabulate.
  destruct (decide (i' = i)) as [->|Hne].
  - rewrite list_lookup_alter_eq, lookup_tabulate. by case_decide.
  - rewrite list_lookup_alter_ne by done. by rewrite lookup_tabulate.
Qed.

Lemma insert_tabulate {A} (x : A) n (f : nat → A) i :
  <[i := x]> (tabulate n f)
  = tabulate n (λ i', if decide (i' = i) then x else f i').
Proof.
  apply list_eq; intros i'. rewrite lookup_tabulate.
  destruct (decide (i' = i)) as [->|Hne].
  - case_decide.
    + apply list_lookup_insert_eq. by rewrite length_tabulate.
    + rewrite list_insert_ge by (rewrite length_tabulate; lia).
      rewrite lookup_tabulate. by case_decide.
  - rewrite list_lookup_insert_ne by done. by rewrite lookup_tabulate.
Qed.

Lemma tensor_of_ext sh f g :
  (∀ i j k, f i j k = g i j k) → tensor_of sh f = tensor_of sh g.
Proof.
  intros Hfg. unfold tensor_of. f_equal.
  apply tabulate_ext; intros i _. apply tabulate_ext; intros j _.
  apply tabulate_ext; intros k _. apply Hfg.
Qed.

Lemma zeros_tensor_of d0 d1 d2 :
  0 ≤ d1 →
  np.zeros d0 d1 d2 = Ok (tensor_of (d0, Z.to_nat d1, d2) (λ _ _ _, false)).
Proof.
  intros Hd1. unfold np.zeros. case_decide; [lia|].
  unfold tensor_of; simpl. by rewrite !replicate_tabulate.
Qed.

Lemma setitem_tensor_of d0 d1 d2 f i j k :
  (i < d0)%nat → (j < d1)%nat → (k < d2)%nat →
  np.setitem (tensor_of (d0, d1, d2) f) i j k
  = Ok (tensor_of (d0, d1, d2)
          (λ i' j' k', if decide (i' = i ∧ j' = j ∧ k' = k) then true
                       else f i' j' k')).
Proof.
  intros Hi Hj Hk. unfold np.setitem, tensor_of; simpl.
  rewrite decide_True by done. do 2 f_equal.
  rewrite alter_tabulate. apply tabulate_ext; intros i' _.
  destruct (decide (i' = i)) as [->|Hi'].
  - rewrite alter_tabulate. apply tabulate_ext; intros j' _.
    destruct (decide (j' = j)) as [->|Hj'].
    + rewrite insert_tabulate. apply tabulate_ext; intros k' _.
      destruct (decide (k' = k)) as [->|Hk'].
      * by rewrite decide_True.
      * rewrite decide_False by (intros (?&?&?); done). done.
    + apply tabulate_ext; intros k' _.
      rewrite decide_False by (intros (?&?&?); done). done.
  - apply tabulate_ext; intros j' _. apply tabulate_ext; intros k' _.
    rewrite decide_False by (intros (?&?&?); done). done.
Qed.

Lemma setitem_shape X i j k X' :
  np.setitem X i j k = Ok X' → shape3 X' = shape3 X.
Proof.
  unfold np.setitem. destruct (shape3 X) as [[d0 d1] d2] eqn:E.
  case_decide; [|done]. intros [= <-]. done.
Qed.

Lemma setitem_out_of_range X i j k :
  ¬ (j < (shape3 X).1.2)%nat → np.setitem X i j k = Raise IndexError.
Proof.
  unfold np.setitem. destruct (shape3 X) as [[d0 d1] d2]; simpl.
  intros Hj. rewrite decide_False; [done|]. intros (?&?&?); done.
Qed.

Lemma slot_tensor_of d0 d1 d2 f i j :
  (i < d0)%nat → (j < d1)%nat →
  slot (tensor_of (d0, d1, d2) f) i j = Some (tabulate d2 (f i j)).
Proof.
  intros Hi Hj. unfold slot, tensor_of; simpl.
  rewrite lookup_tabulate, decide_True by done. simpl.
  by rewrite lookup_tabulate, decide_True.
Qed.

Lemma tabulate_all_zero n (f : nat → bool) :
  (∀ k, (k < n)%nat → f k = false) → tabulate n f = all_zero n.
Proof.
  intros Hf. unfold all_zero. rewrite replicate_tabulate.
  by apply tabulate_ext.
Qed.

Lemma tabulate_one_hot n (f : nat → bool) k0 :
  (∀ k, (k < n)%nat → f k = true ↔ k = k0) → tabulate n f = one_hot n k0.
Proof.
  intros Hf. unfold one_hot. rewrite replicate_tabulate, insert_tabulate.
  apply tabulate_ext; intros k Hk. case_decide.
  - by apply Hf.
  - apply not_true_is_false. by rewrite Hf.
Qed.

End tensor.

(** ** The encoder *)

Section encode_facts.
Context (chars0 : list N).
#[local] Opaque Seq2seq_init.
Local Abbreviation self := (Seq2seq_init chars0).
Local Abbreviation K := (length (chars self)).

Lemma encode_char_unknown X i j c :
  c ∉ chars0 → encode_char self i X (j, c) = Ok X.
Proof.
  intros Hc%char_indices_None. unfold encode_char, dict_getitem; simpl. by rewrite Hc.
Qed.

Lemma encode_char_known X i j c k :
  char_indices self !! c = Some k →
  encode_char self i X (j, c) = np.setitem X i j k.
Proof.
  intros Hc. unfold encode_char, dict_getitem; simpl. rewrite Hc; simpl.
  destruct (np.setitem X i j k) as [X'|e] eqn:E; [done|].
  unfold np.setitem in E. destruct (shape3 X) as [[d0 d1] d2].
  case_decide; by simplify_eq.
Qed.

Lemma encode_char_cases X i j c :
  ((c ∉ chars0) ∧ encode_char self i X (j, c) = Ok X)
  ∨ (∃ k, char_indices self !! c = Some k
          ∧ encode_char self i X (j, c) = np.setitem X i j k).
Proof.
  destruct (char_indices self !! c) as [k|] eqn:E.
  - right. exists k. split; [done|]. by apply encode_char_known.
  - left. apply char_indices_None in E. split; [done|].
    by apply encode_char_unknown.
Qed.

(** A step of the inner loop keeps the shape, and the only exception it
    lets through is the [IndexError] of the write. *)
Lemma encode_char_result X i jc :
  match encode_char self i X jc with
  | Ok X' => shape3 X' = shape3 X
  | Raise e => e = IndexError
  end.
Proof.
  destruct jc as [j c].
  destruct (encode_char_cases X i j c) as [[_ ->]|(k & _ & ->)]; [done|].
  destruct (np.setitem X i j k) as [X'|e] eqn:E.
  - by eapply setitem_shape.
  - unfold np.setitem in E. destruct (shape3 X) as [[d0 d1] d2].
    case_decide; by simplify_eq.
Qed.

Lemma encode_cmd_result jl X i :
  match for_in jl (encode_char self i) X with
  | Ok X' => shape3 X' = shape3 X
  | Raise e => e = IndexError
  end.
Proof.
  revert X. induction jl as [|jc jl IH]; intros X; [done|].
  cbn [for_in]. pose proof (encode_char_result X i jc) as Hjc.
  destruct (encode_char self i X jc) as [X1|e]; [|done]. cbn.
  specialize (IH X1). destruct (for_in jl _ X1); congruence.
Qed.

Lemma encode_cmds_result il X :
  match for_in il (encode_cmd self) X with
  | Ok X' => shape3 X' = shape3 X
  | Raise e => e = IndexError
  end.
Proof.
  revert X. induction il as [|[i cmd] il IH]; intros X; [done|].
  cbn [for_in]. pose proof (encode_cmd_result (enumerate cmd) X i) as Hc.
  change (encode_cmd self X (i, cmd))
    with (for_in (enumerate cmd) (encode_char self i) X).
  destruct (for_in (enumerate cmd) _ X) as [X1|e]; [|done]. cbn.
  specialize (IH X1). destruct (for_in il _ X1); congruence.
Qed.

(** The inner loop, when every known character is in range. *)
Lemma encode_cmd_ok d0 d1 jl i f :
  (i < d0)%nat →
  (∀ j c, (j, c) ∈ jl → c ∈ chars0 → (j < d1)%nat) →
  ∃ f', for_in jl (encode_char self i) (tensor_of (d0, d1, K) f)
        = Ok (tensor_of (d0, d1, K) f')
      ∧ ∀ i' j' k', f' i' j' k' = true ↔
          f i' j' k' = true
          ∨ (i' = i ∧ ∃ c, (j', c) ∈ jl ∧ char_indices self !! c = Some k').
Proof.
  intros Hi. revert f. induction jl as [|[j c] jl IH]; intros f Hjl.
  - exists f. split; [done|]. intros i' j' k'. split; [by left|].
    intros [?|(_ & c & Hc%elem_of_nil & _)]; done.
  - cbn [for_in].
    assert (Hjl' : ∀ j c, (j, c) ∈ jl → c ∈ chars0 → (j < d1)%nat).
    { intros j0 c0 Hin. apply Hjl. by right. }
    destruct (encode_char_cases (tensor_of (d0, d1, K) f) i j c)
      as [[Hc ->]|(k & Hk & ->)].
    + rewrite bind_Ok; cbn beta.
      destruct (IH f Hjl') as (f' & -> & Hf'). exists f'. split; [done|].
      intros i' j' k'. rewrite Hf'. apply or_iff_compat_l.
      split; intros (-> & c' & Hin & Hc'); (split; [done|]); exists c'.
      * split; [by right|done].
      * split; [|done]. apply elem_of_cons in Hin as [[= -> ->]|]; [|done].
        apply char_indices_None in Hc. congruence.
    + assert (j < d1)%nat as Hj.
      { apply (Hjl j c); [by left|]. by apply char_indices_is_Some. }
      rewrite setitem_tensor_of by (done || by eapply char_indices_lt).
      rewrite bind_Ok; cbn beta.
      destruct (IH (λ i' j' k', if decide (i' = i ∧ j' = j ∧ k' = k)
                                then true else f i' j' k') Hjl')
        as (f' & -> & Hf'). exists f'.
      split; [done|]. intros i' j' k'. rewrite Hf'. split.
      * intros [Hd|(-> & c' & Hin & Hc')].
        -- case_decide as Hd'; [|by left]. destruct Hd' as (-> & -> & ->).
           right. split; [done|]. exists c. split; [by left|done].
        -- right. split; [done|]. exists c'. split; [by right|done].
      * intros [Hd|(-> & c' & Hin & Hc')].
        -- left. by case_decide.
        -- apply elem_of_cons in Hin as [[= -> ->]|Hin].
           ++ left. rewrite decide_True; [done|]. split_and!; congruence.
           ++ right. split; [done|]. by exists c'.
Qed.

(** The inner loop, when a known character is out of range. *)
Lemma encode_cmd_raise jl i X j c :
  (j, c) ∈ jl → c ∈ chars0 → ¬ (j < (shape3 X).1.2)%nat →
  for_in jl (encode_char self i) X = Raise IndexError.
Proof.
  revert X. induction jl as [|jc jl IH]; intros X Hin Hc Hj.
  { by apply elem_of_nil in Hin. }
  cbn [for_in]. pose proof (encode_char_result X i jc) as Hjc.
  apply elem_of_cons in Hin as [<-|Hin].
  - apply char_indices_is_Some in Hc as [k Hk].
    rewrite (encode_char_known _ _ _ _ _ Hk) in *.
    by rewrite setitem_out_of_range.
  - destruct (encode_char self i X jc) as [X1|e]; [|by subst]. cbn.
    apply IH; [done..|]. by rewrite Hjc.
Qed.

Lemma encode_cmds_ok d0 d1 il f :
  (∀ i cmd, (i, cmd) ∈ il →
     (i < d0)%nat ∧ ∀ j c, cmd !! j = Some c → c ∈ chars0 → (j < d1)%nat) →
  ∃ f', for_in il (encode_cmd self) (tensor_of (d0, d1, K) f)
        = Ok (tensor_of (d0, d1, K) f')
      ∧ ∀ i' j' k', f' i' j' k' = true ↔
          f i' j' k' = true
          ∨ (∃ cmd c, (i', cmd) ∈ il ∧ cmd !! j' = Some c
                      ∧ char_indices self !! c = Some k').
Proof.
  revert f. induction il as [|[i cmd] il IH]; intros f Hil.
  - exists f. split; [done|]. intros i' j' k'. split; [by left|].
    intros [?|(cmd & c & Hc%elem_of_nil & _)]; done.
  - cbn [for_in].
    change (encode_cmd self (tensor_of (d0, d1, K) f) (i, cmd))
      with (for_in (enumerate cmd) (encode_char self i)
              (tensor_of (d0, d1, K) f)).
    destruct (Hil i cmd) as [Hi Hcmd]; [by left|].
    destruct (encode_cmd_ok d0 d1 (enumerate cmd) i f Hi) as (f1 & -> & Hf1).
    { intros j c Hin%elem_of_enumerate. by apply Hcmd. }
    rewrite bind_Ok; cbn beta. destruct (IH f1) as (f' & -> & Hf').
    { intros i0 cmd0 Hin. apply Hil. by right. }
    exists f'. split; [done|]. intros i' j' k'. rewrite Hf', Hf1. split.
    + intros [[?|(-> & c & Hin%elem_of_enumerate & Hc)]|(cmd' & c & Hin & ? & ?)].
      * by left.
      * right. exists cmd, c. split; [by left|done].
      * right. exists cmd', c. split; [by right|done].
    + intros [?|(cmd' & c & Hin & Hj & Hc)]; [by left; left|].
      apply elem_of_cons in Hin as [[= -> ->]|Hin].
      * left; right. split; [done|]. exists c.
        split; [by apply elem_of_enumerate|done].
      * right. by exists cmd', c.
Qed.

Lemma encode_cmds_raise il X i cmd j c :
  (i, cmd) ∈ il → cmd !! j = Some c → c ∈ chars0 →
  ¬ (j < (shape3 X).1.2)%nat →
  for_in il (encode_cmd self) X = Raise IndexError.
Proof.
  revert X. induction il as [|icmd il IH]; intros X Hin Hj Hc Hlt.
  { by apply elem_of_nil in Hin. }
  cbn [for_in].
  change (encode_cmd self X icmd)
    with (for_in (enumerate icmd.2) (encode_char self icmd.1) X).
  pose proof (encode_cmd_result (enumerate icmd.2) X icmd.1) as Hres.
  apply elem_of_cons in Hin as [<-|Hin].
  - cbn [fst snd]. erewrite encode_cmd_raise; [done| |done..].
    by apply elem_of_enumerate.
  - destruct (for_in (enumerate icmd.2) _ X) as [X1|e]; [|by subst]. cbn.
    eapply IH; [done..|]. by rewrite Hres.
Qed.

(** What [encode] returns when the batch fits. *)
Lemma encode_fits commands max_cmd_len :
  0 ≤ max_cmd_len → fits chars0 commands max_cmd_len →
  ∃ f, encode self commands max_cmd_len
       = Ok (tensor_of (length commands, Z.to_nat max_cmd_len, K) f)
     ∧ ∀ i j k, f i j k = true ↔
         ∃ cmd c, commands !! i = Some cmd ∧ cmd !! j = Some c
                  ∧ chars self !! k = Some c.
Proof.
  intros Hm Hfits. unfold encode. rewrite zeros_tensor_of by done.
  rewrite bind_Ok; cbn beta.
  destruct (encode_cmds_ok (length commands) (Z.to_nat max_cmd_len)
              (enumerate commands) (λ _ _ _, false)) as (f & Hf & Hspec).
  { intros i cmd Hin%elem_of_enumerate. split; [by eapply lookup_lt_Some|].
    intros j c Hj Hc. specialize (Hfits i cmd j c Hin Hj Hc). lia. }
  exists f. split; [exact Hf|]. intros i j k. rewrite Hspec. split.
  - intros [?|(cmd & c & Hin%elem_of_enumerate & Hj & Hc%char_indices_lookup)];
      [done|]. by exists cmd, c.
  - intros (cmd & c & Hin & Hj & Hc). right. exists cmd, c.
    split; [by apply elem_of_enumerate|]. split; [done|].
    by apply char_indices_lookup.
Qed.

(** What [encode] does when a known character is out of range. *)
Lemma encode_overlong commands max_cmd_len i cmd j c :
  commands !! i = Some cmd → cmd !! j = Some c → c ∈ chars0 →
  max_cmd_len ≤ Z.of_nat j →
  encode self commands max_cmd_len
  = Raise (if decide (max_cmd_len < 0) then ValueError else IndexError).
Proof.
  intros Hi Hj Hc Hlt. unfold encode, np.zeros.
  case_decide; [done|]. cbn.
  eapply encode_cmds_raise; [by apply elem_of_enumerate|done..|].
  simpl. lia.
Qed.

Lemma encode_negative commands max_cmd_len :
  max_cmd_len < 0 → encode self commands max_cmd_len = Raise ValueError.
Proof. intros Hm. unfold encode, np.zeros. by rewrite decide_True. Qed.

Lemma encode_not_KeyError commands max_cmd_len :
  encode self commands max_cmd_len ≠ Raise KeyError.
Proof.
  unfold encode, np.zeros. case_decide; [done|]. cbn.
  match goal with |- for_in ?il _ ?X ≠ _ =>
    pose proof (encode_cmds_result il X) as Hres end.
  destruct (for_in _ _ _); [done|]. by subst.
Qed.

Lemma encode_Ok_fits commands max_cmd_len X :
  encode self commands max_cmd_len = Ok X →
  0 ≤ max_cmd_len ∧ fits chars0 commands max_cmd_len.
Proof.
  intros HX. split.
  - destruct (decide (max_cmd_len < 0)) as [Hneg|]; [|lia].
    by rewrite encode_negative in HX.
  - intros i cmd j c Hi Hj Hc.
    destruct (decide (Z.of_nat j < max_cmd_len)) as [|Hge]; [done|].
    rewrite (encode_overlong _ _ i cmd j c) in HX by (done || lia). done.
Qed.

End encode_facts.

(** ** numpy reductions *)

Section reductions.

Lemma argmax_from_best bi i v : np.argmax_from bi true i v = bi.
Proof. revert i. induction v as [|x v IH]; intros i; simpl; auto. Qed.

Lemma argmax_from_zeros bi b i n :
  np.argmax_from bi b i (replicate n false) = bi.
Proof.
  revert i. induction n as [|n IH]; intros i; simpl; [done|].
  by rewrite andb_false_r.
Qed.

Lemma argmax_from_first bi i n v :
  np.argmax_from bi false i (replicate n false ++ true :: v) = (i + n)%nat.
Proof.
  revert i. induction n as [|n IH]; intros i; simpl.
  - rewrite argmax_from_best. lia.
  - rewrite IH. lia.
Qed.

Lemma argmax1_all_zero n : np.argmax1 (all_zero n) = 0%nat.
Proof. destruct n; simpl; [done|]. apply argmax_from_zeros. Qed.

Lemma one_hot_split n k :
  (k < n)%nat →
  one_hot n k = replicate k false ++ true :: replicate (n - S k) false.
Proof.
  intros Hk. unfold one_hot.
  replace n with (k + S (n - S k))%nat at 1 by lia.
  rewrite replicate_add. simpl.
  rewrite insert_app_r_alt by (rewrite length_replicate; lia).
  rewrite length_replicate, Nat.sub_diag. done.
Qed.

Lemma argmax1_one_hot n k : (k < n)%nat → np.argmax1 (one_hot n k) = k.
Proof.
  intros Hk. rewrite one_hot_split by done. destruct k as [|k]; simpl.
  - apply argmax_from_best.
  - by rewrite argmax_from_first.
Qed.

Lemma elem_of_nonzero (X : list nat) i :
  i ∈ np.nonzero X ↔ ∃ x, X !! i = Some x ∧ x ≠ 0%nat.
Proof.
  unfold np.nonzero. rewrite list_elem_of_fmap. split.
  - intros [[i' x] [-> [Hx Hin%elem_of_enumerate]%list_elem_of_filter]].
    by exists x.
  - intros (x & Hi & Hx). exists (i, x). split; [done|].
    apply list_elem_of_filter. split; [done|]. by apply elem_of_enumerate.
Qed.

Lemma nonzero_zeros n : np.nonzero (replicate n 0%nat) = [].
Proof.
  apply elem_of_nil_inv. intros i (x & Hi & Hx)%elem_of_nonzero.
  apply lookup_replicate in Hi as [-> _]. done.
Qed.

Lemma foldl_max_spec l x :
  let r := foldl Nat.max x l in
  r ∈ x :: l ∧ ∀ y, y ∈ x :: l → (y ≤ r)%nat.
Proof.
  revert x. induction l as [|z l IH]; intros x; simpl.
  - split; [by left|]. intros y ->%list_elem_of_singleton. done.
  - destruct (IH (x `max` z)%nat) as [Hin Hub]. split.
    + apply elem_of_cons in Hin as [Heq|Hin]; [|by do 2 right].
      rewrite Heq. destruct (Nat.max_spec x z) as [[_ ->]|[_ ->]].
      * right. by left.
      * by left.
    + intros y Hy. assert (x `max` z ≤ foldl Nat.max (x `max` z) l)%nat
        by (apply Hub; by left).
      apply elem_of_cons in Hy as [->|[->|Hy]%elem_of_cons]; [lia..|].
      apply Hub. by right.
Qed.

Lemma amax_Ok l e :
  e ∈ l → (∀ x, x ∈ l → (x ≤ e)%nat) → np.amax l = Ok e.
Proof.
  intros He Hub. destruct l as [|x l]; [by apply elem_of_nil in He|].
  simpl. f_equal. destruct (foldl_max_spec l x) as [Hin Hr].
  apply Nat.le_antisymm; [by apply Hub|by apply Hr].
Qed.

End reductions.

(** ** The decoder *)

Section decode_facts.
Context (chars0 : list N).
Local Abbreviation self := (Seq2seq_init chars0).
Local Abbreviation K := (length (chars self)).
#[local] Opaque Seq2seq_init.

Lemma getitem_tensor_of d0 d1 d2 f i :
  (i < d0)%nat →
  np.getitem (tensor_of (d0, d1, d2) f) i
  = Ok (mk_ndarray2 (d1, d2) (tabulate d1 (λ j, tabulate d2 (f i j)))).
Proof.
  intros Hi. unfold np.getitem, tensor_of; simpl.
  by rewrite lookup_tabulate, decide_True.
Qed.

Lemma fmap_tabulate {A B} (g : A → B) n (f : nat → A) :
  g <$> tabulate n f = tabulate n (g ∘ f).
Proof. unfold tabulate. by rewrite <-list_fmap_compose. Qed.

(** The slots of an encoded row collapse to the class indices. *)
Lemma encode_argmax s max_cmd_len :
  0 ≤ max_cmd_len → fits chars0 [s] max_cmd_len → K ≠ 0%nat →
  ∃ row, (X ← encode self [s] max_cmd_len; np.getitem X 0) = Ok row
       ∧ np.argmax row
         = Ok (tabulate (Z.to_nat max_cmd_len) (code_of self s)).
Proof.
  intros Hm Hfits HK.
  destruct (encode_fits chars0 [s] max_cmd_len Hm Hfits) as (f & -> & Hf).
  rewrite bind_Ok; cbn beta. simpl length.
  rewrite getitem_tensor_of by lia. eexists. split; [done|].
  unfold np.argmax; simpl. rewrite decide_False by done. f_equal.
  rewrite fmap_tabulate. apply tabulate_ext; intros j Hj. simpl.
  unfold code_of. destruct (s !! j) as [c|] eqn:Hc; simpl.
  - destruct (char_indices self !! c) as [k|] eqn:Hk; simpl.
    + rewrite (tabulate_one_hot _ _ k).
      { apply argmax1_one_hot. by eapply char_indices_lt. }
      intros k' _. rewrite Hf. apply char_indices_lookup in Hk. split.
      * intros (cmd & c' & [= <-] & Hc' & Hk'). simplify_eq.
        eapply NoDup_lookup; [apply (chars_NoDup chars0)|done..].
      * intros ->. by exists s, c.
    + rewrite tabulate_all_zero; [apply argmax1_all_zero|].
      intros k' _. apply not_true_is_false. rewrite Hf.
      intros (cmd & c' & [= <-] & Hc' & Hk'%char_indices_lookup).
      simplify_eq.
  - rewrite tabulate_all_zero; [apply argmax1_all_zero|].
    intros k' _. apply not_true_is_false. rewrite Hf.
    intros (cmd & c' & [= <-] & Hc' & _). simplify_eq.
Qed.

Lemma decode_loop_take (A : list nat) (l : list N) n :
  (n ≤ length l)%nat →
  (∀ i, (i < n)%nat →
     ∃ x, A !! i = Some x ∧ indices_char self !! x = l !! i) →
  decode_loop self A (seq 0 n) = Ok (take n l).
Proof.
  unfold decode_loop. induction n as [|n IH]; intros Hn HA; [done|].
  rewrite seq_S, for_in_app, IH by (lia || (intros; apply HA; lia)).
  rewrite bind_Ok; cbn beta. simpl.
  destruct (HA n) as (x & Hx & Hc); [lia|].
  unfold list_getitem, dict_getitem. rewrite Hx; simpl. rewrite Hc.
  destruct (lookup_lt_is_Some_2 l n) as [c Hl]; [lia|]. rewrite Hl; simpl.
  by erewrite take_S_r.
Qed.

Lemma range_0 (n : nat) : range 0 (Z.of_nat n + 1) = seq 0 (S n).
Proof. unfold range. f_equal. lia. Qed.

(** An all-zero row: both reductions of [decode] meet an empty array. *)
Lemma decode_zero_row n k max_cmd_len inverted :
  decode self true (zero_row n k) max_cmd_len inverted = Raise ValueError.
Proof.
  unfold decode, zero_row, np.argmax; simpl.
  case_decide; [done|]. rewrite bind_Ok; cbn beta.
  rewrite fmap_replicate.
  change (replicate k false) with (all_zero k).
  rewrite argmax1_all_zero, nonzero_zeros. by destruct inverted.
Qed.

(** The example of the specification, with the blank and the dash in the
    inventory. *)
Example encode_decode_ls :
  roundtrip (Seq2seq_init (py "abcdefghijklmnopqrstuvwxyz- ")) (py "ls -l")
    10 false
  = Ok (py "ls -l").
Proof. vm_compute. reflexivity. Qed.

End decode_facts.

(** ** The codec: round trip, lenient encoding, empty rows *)

Ltac by_computation := apply (bool_decide_unpack _); vm_compute; exact I.

#[local] Opaque Seq2seq_init.

(** C1, as stated, fails: with the inventory [a, b] the string "ba" fits
    in two positions and is drawn from the inventory, yet it decodes to
    "b".  The slot of "a" collapses to class 0, which is also what an
    empty slot collapses to, so the decoder takes it for padding. *)
Lemma roundtrip_loses_first_char :
  let self := Seq2seq_init (py "ab") in
  len (py "ba") ≤ 2
  ∧ Forall (λ c, c ∈ chars self) (py "ba")
  ∧ roundtrip self (py "ba") 2 false = Ok (py "b")
  ∧ roundtrip self (py "ba") 2 false ≠ Ok (py "ba").
Proof.
  split_and!; [done|by_computation|by vm_compute|by vm_compute].
Qed.

(** C1 (amended): let [s = t ++ pad] have length at most [max_cmd_len] and
    all its characters in the inventory, where [pad] is a (possibly empty)
    run of the inventory's first character (index 0) and [t] ends in a
    character of non-zero index.  Then decoding the row encoded for [s],
    with [reduction] true and [inverted] false, returns [t]: the string
    itself when [pad] is empty, the string without its trailing run of the
    first character otherwise. *)
Theorem roundtrip_trims_first_char chars0 t pad max_cmd_len c k :
  let self := Seq2seq_init chars0 in
  Forall (λ x, x ∈ chars self) t →
  last t = Some c → char_indices self !! c = Some (S k) →
  Forall (λ p, char_indices self !! p = Some 0%nat) pad →
  len (t ++ pad) ≤ max_cmd_len →
  roundtrip self (t ++ pad) max_cmd_len false = Ok t.
Proof.
  cbv zeta. intros Ht Hlast Hc Hpad Hlen. unfold len in Hlen.
  rewrite length_app in Hlen.
  assert (Hm : 0 ≤ max_cmd_len) by lia.
  assert (Hfits : fits chars0 [t ++ pad] max_cmd_len).
  { intros i cmd j x Hi Hj _. destruct i; simplify_eq/=.
    apply lookup_lt_Some in Hj. rewrite length_app in Hj. lia. }
  assert (HK : length (chars (Seq2seq_init chars0)) ≠ 0%nat).
  { apply char_indices_lt in Hc. lia. }
  destruct (encode_argmax chars0 (t ++ pad) max_cmd_len Hm Hfits HK)
    as (row & Hrow & Hargmax).
  unfold roundtrip.
  destruct (encode (Seq2seq_init chars0) [t ++ pad] max_cmd_len) as [X|e];
    [|done].
  change (np.getitem X 0 = Ok row) in Hrow. rewrite bind_Ok; cbn beta.
  rewrite Hrow, bind_Ok; cbn beta. unfold decode. rewrite Hargmax, bind_Ok.
  cbn beta iota.
  set (A := tabulate (Z.to_nat max_cmd_len)
              (code_of (Seq2seq_init chars0) (t ++ pad))).
  assert (Hne : (0 < length t)%nat).
  { destruct t; [done|simpl; lia]. }
  rewrite last_lookup in Hlast.
  assert (HA : ∀ j, (j < length t + length pad)%nat →
               A !! j = Some (code_of (Seq2seq_init chars0) (t ++ pad) j)).
  { intros j Hj. unfold A. rewrite lookup_tabulate, decide_True by lia. done. }
  rewrite (amax_Ok _ (pred (length t))).
  - rewrite bind_Ok; cbn beta. rewrite range_0.
    replace (S (pred (length t))) with (length t) by lia.
    rewrite (decode_loop_take chars0 A t); [by rewrite firstn_all|done|].
    intros i Hi. exists (code_of (Seq2seq_init chars0) (t ++ pad) i).
    split; [apply HA; lia|].
    destruct (lookup_lt_is_Some_2 t i Hi) as [x Hx].
    assert (Hin : x ∈ chars (Seq2seq_init chars0)).
    { rewrite Forall_forall in Ht. apply Ht. by eapply list_elem_of_lookup_2. }
    apply (elem_of_chars chars0) in Hin.
    apply (char_indices_is_Some chars0) in Hin as [kx Hkx].
    unfold code_of. rewrite lookup_app_l, Hx by done. simpl. rewrite Hkx; simpl.
    rewrite indices_char_lookup. by apply char_indices_lookup.
  - apply elem_of_nonzero. exists (S k). split; [|done].
    rewrite HA by lia. unfold code_of.
    rewrite lookup_app_l, Hlast by lia. simpl. by rewrite Hc.
  - intros j (x & Hj & Hx)%elem_of_nonzero.
    destruct (decide (j < length t)%nat); [lia|]. exfalso. apply Hx.
    unfold A in Hj. rewrite lookup_tabulate in Hj. case_decide; [|done].
    injection Hj as <-. unfold code_of. rewrite lookup_app_r by lia.
    destruct (pad !! (j - length t)%nat) as [p|] eqn:Hp; [|done]. simpl.
    rewrite Forall_forall in Hpad. rewrite (Hpad p); [done|].
    by eapply list_elem_of_lookup_2.
Qed.

Lemma roundtrip_trims_first_char_witness :
  roundtrip (Seq2seq_init (py "abc")) (py "cab" ++ py "aa") 6 false
  = Ok (py "cab").
Proof.
  apply (roundtrip_trims_first_char (py "abc") (py "cab") (py "aa") 6 98%N 0).
  - by_computation.
  - reflexivity.
  - vm_compute. reflexivity.
  - repeat constructor; vm_compute; reflexivity.
  - vm_compute. discriminate.
Defined.

(** C2: [encode] never lets the [KeyError] of an unknown character out;
    it returns an array exactly when [max_cmd_len] is non-negative and the
    characters of the inventory sit below [max_cmd_len] (unknown ones may
    sit anywhere); and in the array it returns, the slot of an unknown
    character and the slots past the end of a string are all zero, while
    the slot of a known character has exactly the bit at its inventory
    index set. *)
Theorem encode_unknown_char_zero_slot chars0 commands max_cmd_len :
  let self := Seq2seq_init chars0 in
  let K := length (chars self) in
  encode self commands max_cmd_len ≠ Raise KeyError
  ∧ ((∃ X, encode self commands max_cmd_len = Ok X)
     ↔ 0 ≤ max_cmd_len ∧ fits chars0 commands max_cmd_len)
  ∧ ∀ X, encode self commands max_cmd_len = Ok X →
      shape3 X = (length commands, Z.to_nat max_cmd_len, K)
      ∧ ∀ i cmd j, commands !! i = Some cmd → Z.of_nat j < max_cmd_len →
          match cmd !! j with
          | None => slot X i j = Some (all_zero K)
          | Some c =>
              match char_indices self !! c with
              | None => (c ∉ chars self) ∧ slot X i j = Some (all_zero K)
              | Some k => chars self !! k = Some c
                          ∧ slot X i j = Some (one_hot K k)
              end
          end.
Proof.
  cbv zeta. split_and!.
  - apply encode_not_KeyError.
  - split.
    + intros [X HX]. by eapply encode_Ok_fits.
    + intros [Hm Hfits].
      destruct (encode_fits chars0 commands max_cmd_len Hm Hfits) as (f & Hf & _).
      eauto.
  - intros X HX. destruct (encode_Ok_fits _ _ _ _ HX) as [Hm Hfits].
    destruct (encode_fits chars0 commands max_cmd_len Hm Hfits) as (f & Hf & Hspec).
    rewrite HX in Hf. injection Hf as ->.
    split; [done|]. intros i cmd j Hi Hj.
    rewrite slot_tensor_of by (lia || by eapply lookup_lt_Some).
    destruct (cmd !! j) as [c|] eqn:Hc.
    + destruct (char_indices (Seq2seq_init chars0) !! c) as [k|] eqn:Hk.
      * apply char_indices_lookup in Hk. split; [done|]. f_equal.
        apply tabulate_one_hot. intros k' _. rewrite Hspec. split.
        -- intros (cmd' & c' & ? & ? & ?). simplify_eq.
           eapply NoDup_lookup; [apply (chars_NoDup chars0)|done..].
        -- intros ->. by exists cmd, c.
      * split.
        { rewrite elem_of_chars. by apply char_indices_None. }
        f_equal. apply tabulate_all_zero. intros k' _.
        apply not_true_is_false. rewrite Hspec.
        intros (cmd' & c' & ? & ? & Hk'%char_indices_lookup). simplify_eq.
    + f_equal. apply tabulate_all_zero. intros k' _.
      apply not_true_is_false. rewrite Hspec.
      intros (cmd' & c' & ? & ? & _). simplify_eq.
Qed.

Lemma encode_unknown_char_zero_slot_witness :
  ∃ X, encode (Seq2seq_init (py "ab")) [py "a$b"; py "b$$$"] 3 = Ok X
       ∧ slot X 0 0 = Some (one_hot 2 0)
       ∧ slot X 0 1 = Some (all_zero 2)
       ∧ slot X 0 2 = Some (one_hot 2 1)
       ∧ slot X 1 1 = Some (all_zero 2).
Proof.
  destruct (encode_unknown_char_zero_slot (py "ab") [py "a$b"; py "b$$$"] 3)
    as (_ & _ & Hslots).
  eexists. split; [vm_compute; reflexivity|].
  edestruct Hslots as [_ Hs]; [vm_compute; reflexivity|].
  split_and!.
  - apply (Hs 0%nat (py "a$b") 0%nat); [reflexivity|lia].
  - apply (Hs 0%nat (py "a$b") 1%nat); [reflexivity|lia].
  - apply (Hs 0%nat (py "a$b") 2%nat); [reflexivity|lia].
  - apply (Hs 1%nat (py "b$$$") 1%nat); [reflexivity|lia].
Defined.

(** C3: the code does not honour the claim.  On an all-zero row of any
    shape, [decode] with [reduction] true raises [ValueError], for every
    [max_cmd_len] and both settings of [inverted]: the row collapses to
    class 0 everywhere, [np.nonzero] is empty, and its maximum (minimum)
    does not exist.  The sibling branch ([reduction] false) tests for that
    case and returns the empty string.  An all-zero row is what [encode]
    builds for the empty string. *)
Theorem decode_all_zero_row_raises chars0 n k max_cmd_len inverted :
  let self := Seq2seq_init chars0 in
  decode self true (zero_row n k) max_cmd_len inverted = Raise ValueError
  ∧ decode self false (replicate n 0%nat) max_cmd_len inverted = Ok []
  ∧ (0 ≤ max_cmd_len →
     roundtrip self [] max_cmd_len inverted = Raise ValueError).
Proof.
  cbv zeta. split_and!.
  - apply decode_zero_row.
  - unfold decode. rewrite nonzero_zeros. done.
  - intros Hm. unfold roundtrip, encode. rewrite zeros_tensor_of by done.
    rewrite bind_Ok; cbn beta. cbn [enumerate imap for_in length].
    unfold encode_cmd. cbn [enumerate imap for_in snd].
    repeat (rewrite bind_Ok; cbn beta).
    rewrite getitem_tensor_of by lia. rewrite bind_Ok; cbn beta.
    rewrite <-!replicate_tabulate. apply (decode_zero_row chars0).
Qed.

Lemma decode_all_zero_row_raises_witness :
  roundtrip (Seq2seq_init (py "ab")) [] 3 false = Raise ValueError.
Proof.
  apply (decode_all_zero_row_raises (py "ab") 3 2 3 false). lia.
Defined.

(** C10: a character of the inventory at a position at or past
    [max_cmd_len] makes [encode] raise: the [IndexError] of the write is
    not a [KeyError], so the handler does not catch it (with a negative
    [max_cmd_len] the allocation has already raised [ValueError]).  No
    array is returned. *)
Theorem encode_overlong_raises chars0 commands max_cmd_len i cmd j c :
  let self := Seq2seq_init chars0 in
  commands !! i = Some cmd → cmd !! j = Some c → c ∈ chars self →
  max_cmd_len ≤ Z.of_nat j →
  encode self commands max_cmd_len
  = Raise (if decide (max_cmd_len < 0) then ValueError else IndexError)
  ∧ ¬ ∃ X, encode self commands max_cmd_len = Ok X.
Proof.
  cbv zeta. intros Hi Hj Hc Hlt. apply (elem_of_chars chars0) in Hc.
  pose proof (encode_overlong chars0 commands max_cmd_len i cmd j c Hi Hj Hc Hlt)
    as Henc.
  split; [done|]. intros [X HX]. congruence.
Qed.

Lemma encode_overlong_raises_witness :
  encode (Seq2seq_init (py "ab")) [py "ab"] 1 = Raise IndexError.
Proof.
  apply (encode_overlong_raises (py "ab") [py "ab"] 1 0%nat (py "ab") 1%nat 98%N).
  - reflexivity.
  - reflexivity.
  - by_computation.
  - lia.
Defined.

(** C9: two lists of characters with the same elements build the same
    codec, because [__init__] keeps only the sorted set of the list; hence
    [encode] and [decode] agree on every input.  The inventory of the
    codec is strictly increasing. *)
Theorem codec_depends_on_char_set chars1 chars2 :
  (∀ c, c ∈ chars1 ↔ c ∈ chars2) →
  Seq2seq_init chars1 = Seq2seq_init chars2
  ∧ StronglySorted N.lt (chars (Seq2seq_init chars1))
  ∧ (∀ commands max_cmd_len,
       encode (Seq2seq_init chars1) commands max_cmd_len
       = encode (Seq2seq_init chars2) commands max_cmd_len)
  ∧ (∀ reduction X max_cmd_len inverted,
       decode (Seq2seq_init chars1) reduction X max_cmd_len inverted
       = decode (Seq2seq_init chars2) reduction X max_cmd_len inverted).
Proof.
  intros Hset.
  pose proof (Seq2seq_init_ext chars1 chars2 Hset) as Heq.
  split_and!; [done|apply chars_strictly_sorted|..]; intros; by rewrite Heq.
Qed.

Lemma codec_depends_on_char_set_witness :
  Seq2seq_init (py "banana") = Seq2seq_init (py "nab").
Proof.
  apply (codec_depends_on_char_set (py "banana") (py "nab")).
  intros c. simpl. rewrite !elem_of_cons, !elem_of_nil. tauto.
Defined.

(** ** Random draws *)

Section random_facts.

Lemma Rand_bind_eq {A B} (m : Rand A) (f : A → Rand B) rs :
  (m ≫= f) rs
  = match m rs with Ok (a, rs') => f a rs' | Raise e => Raise e end.
Proof. done. Qed.

Lemma lift_Ok {A} (a : A) rs : lift (Ok a) rs = Ok (a, rs).
Proof. done. Qed.

Lemma randint_pos high rs :
  0 < high →
  random.randint high rs
  = Ok (N.to_nat (tape rs (cursor rs) mod Z.to_N high), advance rs).
Proof. intros Hh. unfold random.randint. by rewrite decide_False by lia. Qed.

Lemma randint_nonpos high rs :
  high ≤ 0 → random.randint high rs = Raise ValueError.
Proof. intros Hh. unfold random.randint. by rewrite decide_True. Qed.

(** A draw of [randint(high)] lies in [[0, high)]. *)
Lemma randint_range high rs p rs' :
  random.randint high rs = Ok (p, rs') →
  0 < high ∧ Z.of_nat p < high ∧ rs' = advance rs.
Proof.
  destruct (decide (high ≤ 0)) as [Hle|Hgt].
  - by rewrite randint_nonpos.
  - rewrite randint_pos by lia. intros [= <- <-]. split_and!; [lia| |done].
    pose proof (N.mod_upper_bound (tape rs (cursor rs)) (Z.to_N high)). lia.
Qed.

(** Every integer of [[0, high)] is a draw of [randint(high)]. *)
Lemma randint_onto high rs (p : nat) :
  Z.of_nat p < high → tape rs (cursor rs) = N.of_nat p →
  random.randint high rs = Ok (p, advance rs).
Proof.
  intros Hp Hraw. rewrite randint_pos by lia. do 2 f_equal.
  rewrite Hraw, N.mod_small by lia. lia.
Qed.

Lemma mod_uniform (high q p : nat) :
  (p < high)%nat →
  length (filter (λ raw, (raw `mod` high)%nat = p) (seq 0 (q * high))) = q.
Proof.
  intros Hp. induction q as [|q IH]; [done|].
  replace (S q * high)%nat with (q * high + high)%nat by lia.
  rewrite seq_app, filter_app, length_app, IH. simpl.
  rewrite <-(Nat.add_0_r (q * high)), <-fmap_add_seq.
  assert (G : ∀ n, (n ≤ high)%nat →
            length (filter (λ raw, (raw `mod` high)%nat = p)
                      (Nat.add (q * high) <$> seq 0 n))
            = if decide (p < n)%nat then 1%nat else 0%nat).
  { induction n as [|n IHn]; intros Hn; [done|].
    rewrite seq_S, fmap_app, filter_app, length_app, IHn by lia. simpl.
    assert (((q * high + n) `mod` high)%nat = n) as Hmod.
    { rewrite Nat.add_comm, Nat.Div0.mod_add.
      apply Nat.mod_small. lia. }
    rewrite filter_cons, Hmod. simpl.
    repeat case_decide; simpl; lia. }
  rewrite G by lia. rewrite decide_True by done. lia.
Qed.

(** [randint(high)] is uniform on the raw draws: over [q] full periods
    of raw values, each integer of the range is drawn [q] times. *)
Lemma randint_uniform (high q p : nat) :
  (p < high)%nat →
  length (filter (λ raw, value (random.randint (Z.of_nat high)
                                  (tape_of [N.of_nat raw])) = Ok p)
            (seq 0 (q * high))) = q.
Proof.
  intros Hp. rewrite <-(mod_uniform high q p Hp) at 2. f_equal.
  apply list_filter_iff. intros raw.
  rewrite randint_pos by lia. simpl.
  assert (N.to_nat (N.of_nat raw `mod` Z.to_N (Z.of_nat high))
          = (raw `mod` high)%nat) as ->.
  { rewrite N2Nat.inj_mod, Nat2N.id. do 2 f_equal. lia. }
  split; [by intros [= ->]|by intros ->].
Qed.

Lemma rand_eq rs :
  random.rand rs = Ok (noise_of (tape rs (cursor rs)), advance rs).
Proof. done. Qed.

Lemma choice_Ok {A} (a : list A) rs x rs' :
  random.choice a rs = Ok (x, rs') →
  ∃ i, a !! i = Some x ∧ random.randint (len a) rs = Ok (i, rs').
Proof.
  unfold random.choice. rewrite Rand_bind_eq.
  destruct (random.randint (len a) rs) as [[i rs1]|e] eqn:Hi; [|done].
  unfold list_getitem. destruct (a !! i) as [y|] eqn:Hy; [|done].
  rewrite lift_Ok. intros [= <- <-]. by exists i.
Qed.

Lemma choice_onto {A} (a : list A) rs i x :
  a !! i = Some x → tape rs (cursor rs) = N.of_nat i →
  random.choice a rs = Ok (x, advance rs).
Proof.
  intros Hx Hraw. unfold random.choice. rewrite Rand_bind_eq.
  rewrite (randint_onto _ _ i); [|apply lookup_lt_Some in Hx; unfold len; lia|done].
  unfold list_getitem. by rewrite Hx.
Qed.

Lemma choice_nil {A} rs : random.choice (@nil A) rs = Raise ValueError.
Proof. done. Qed.

End random_facts.

(** ** Mistake injection *)

Section create_mistakes_facts.
Context (chars : list N) (command : list N)
        (vocab_trie : list N → option (list N)) (level_of_noise : Qc).

Lemma mistakes_size : size mistakes = 4%nat.
Proof. by vm_compute. Qed.

Lemma drawn_kind_lt rs : (drawn_kind rs < 4)%nat.
Proof.
  unfold drawn_kind.
  pose proof (N.mod_upper_bound (tape rs (cursor rs)) 4). lia.
Qed.

(** No prefix found: the command is returned as it is. *)
Lemma create_mistakes_not_found rs :
  vocab_trie command = None →
  create_mistakes chars command vocab_trie level_of_noise rs
  = Ok (command, advance rs).
Proof.
  intros Hnone. unfold create_mistakes.
  rewrite Rand_bind_eq, mistakes_size, randint_pos by lia. by rewrite Hnone.
Qed.

(** The draw is not below the level of noise: the command is returned
    as it is. *)
Lemma create_mistakes_quiet rs prefix :
  vocab_trie command = Some prefix →
  ¬ (drawn_noise rs < level_of_noise)%Qc →
  create_mistakes chars command vocab_trie level_of_noise rs
  = Ok (command, advance (advance rs)).
Proof.
  intros Hsome Hquiet. unfold create_mistakes.
  rewrite Rand_bind_eq, mistakes_size, randint_pos by lia. rewrite Hsome.
  rewrite Rand_bind_eq, rand_eq. simpl cursor. simpl tape.
  change (noise_of _) with (drawn_noise rs). by rewrite decide_False.
Qed.

(** A mistake is applied: what remains to run after the first two
    draws, by kind. *)
Lemma create_mistakes_applied rs prefix :
  vocab_trie command = Some prefix →
  (drawn_noise rs < level_of_noise)%Qc →
  create_mistakes chars command vocab_trie level_of_noise rs
  = (char_pos ← random.randint (len prefix);
     match drawn_kind rs with
     | 0%nat =>
         c ← random.choice chars;
         mret (take char_pos command ++ [c] ++ drop (char_pos + 1) command)
     | 1%nat =>
         mret (take char_pos command ++ drop (char_pos + 1) command)
     | 2%nat =>
         c ← random.choice chars;
         mret (take char_pos command ++ [c] ++ drop char_pos command)
     | _ =>
         char_pos ← random.randint (len command - 1);
         right ← lift (list_getitem command (char_pos + 1));
         left ← lift (list_getitem command char_pos);
         mret (take char_pos command ++ [right] ++ [left]
               ++ drop (char_pos + 2) command)
     end) (advance (advance rs)).
Proof.
  intros Hsome Hnoise. unfold create_mistakes.
  rewrite Rand_bind_eq, mistakes_size, randint_pos by lia. rewrite Hsome.
  rewrite Rand_bind_eq, rand_eq. simpl cursor. simpl tape.
  change (noise_of _) with (drawn_noise rs). rewrite decide_True by done.
  change (N.to_nat (_ `mod` _)) with (drawn_kind rs).
  change (advance {| tape := tape rs; cursor := S (cursor rs) |})
    with (advance (advance rs)).
  rewrite !Rand_bind_eq.
  destruct (random.randint (len prefix) (advance (advance rs)))
    as [[char_pos rs3]|e]; [|done].
  pose proof (drawn_kind_lt rs) as Hlt.
  destruct (drawn_kind rs) as [|[|[|[|k]]]]; try done. lia.
Qed.

End create_mistakes_facts.

Section create_mistakes_claims.

Lemma noise_of_0 : noise_of 0 = 0%Qc.
Proof. apply Qc_is_canon. by vm_compute. Qed.

Lemma len_pos_nonempty {A} (l : list A) : 0 < len l ↔ l ≠ [].
Proof. unfold len. destruct l; simpl; split; (done || lia). Qed.

(** C4: the code does not honour the claim.  When a mistake is applied
    (prefix found, draw below the level of noise), [create_mistakes]
    raises [ValueError] if the found prefix is empty, whatever the kind,
    and if the kind is the transposition and the command has length 1:
    in both cases [randint] is asked for an integer of an empty range. *)
Theorem create_mistakes_raises chars command vocab_trie level_of_noise
    prefix rs :
  vocab_trie command = Some prefix →
  (drawn_noise rs < level_of_noise)%Qc →
  prefix = [] ∨ (drawn_kind rs = 3%nat ∧ length command = 1%nat) →
  create_mistakes chars command vocab_trie level_of_noise rs
  = Raise ValueError.
Proof.
  intros Hsome Hnoise Hcase.
  rewrite (create_mistakes_applied _ _ _ _ _ prefix) by done.
  rewrite Rand_bind_eq.
  destruct (decide (len prefix ≤ 0)) as [Hle|Hgt].
  { by rewrite randint_nonpos. }
  rewrite randint_pos by lia.
  destruct Hcase as [->|[-> Hlen]]; [done|].
  rewrite Rand_bind_eq, randint_nonpos; [done|]. unfold len. lia.
Qed.

Lemma create_mistakes_raises_witness :
  create_mistakes (py "ab") (py "w") (λ _, Some (py "w")) 1%Qc
    (tape_of [3; 0; 0]%N)
  = Raise ValueError.
Proof.
  apply (create_mistakes_raises (py "ab") (py "w") (λ _, Some (py "w")) 1%Qc
           (py "w") (tape_of [3; 0; 0]%N)).
  - reflexivity.
  - by vm_compute.
  - right. split; reflexivity.
Defined.

(** Outside those cases the function returns. *)
Lemma create_mistakes_returns chars command vocab_trie level_of_noise rs :
  match vocab_trie command with
  | None => True
  | Some prefix => prefix ≠ [] ∧ chars ≠ [] ∧ (2 ≤ length command)%nat
  end →
  ∃ result rs',
    create_mistakes chars command vocab_trie level_of_noise rs
    = Ok (result, rs').
Proof.
  destruct (vocab_trie command) as [prefix|] eqn:Hsome.
  2:{ intros _. rewrite create_mistakes_not_found by done. eauto. }
  intros (Hprefix & Hchars & Hlen).
  destruct (decide (drawn_noise rs < level_of_noise)%Qc) as [Hnoise|Hquiet].
  2:{ rewrite (create_mistakes_quiet _ _ _ _ _ prefix) by done. eauto. }
  rewrite (create_mistakes_applied _ _ _ _ _ prefix) by done.
  apply len_pos_nonempty in Hprefix, Hchars.
  rewrite Rand_bind_eq, randint_pos by done.
  assert (Hchoice : ∀ rs1, ∃ c, random.choice chars rs1 = Ok (c, advance rs1)).
  { intros rs1. unfold random.choice. rewrite Rand_bind_eq, randint_pos by done.
    match goal with |- context [list_getitem _ ?i] =>
      destruct (lookup_lt_is_Some_2 chars i) as [c Hc] end.
    { pose proof (N.mod_upper_bound (tape rs1 (cursor rs1)) (Z.to_N (len chars))).
      unfold len in *. lia. }
    exists c. unfold list_getitem. by rewrite Hc. }
  destruct (drawn_kind rs) as [|[|[|k]]].
  - rewrite Rand_bind_eq. edestruct Hchoice as [c ->]. eauto.
  - eauto.
  - rewrite Rand_bind_eq. edestruct Hchoice as [c ->]. eauto.
  - rewrite Rand_bind_eq, randint_pos by (unfold len; lia).
    set (p := N.to_nat _).
    assert (Z.of_nat p < len command - 1) as Hp.
    { unfold p. simpl.
      match goal with |- context [(?raw `mod` ?n)%N] =>
        pose proof (N.mod_upper_bound raw n) end.
      unfold len in *. lia. }
    unfold len in Hp.
    destruct (lookup_lt_is_Some_2 command (p + 1)) as [y Hy]; [lia|].
    destruct (lookup_lt_is_Some_2 command p) as [x Hx]; [lia|].
    rewrite !Rand_bind_eq. unfold list_getitem. rewrite Hy, Hx. simpl. eauto.
Qed.

End create_mistakes_claims.

Section create_mistakes_positions.
Context (chars : list N) (command : list N)
        (vocab_trie : list N → option (list N)) (level_of_noise : Qc)
        (prefix : list N).
Hypothesis Hsome : vocab_trie command = Some prefix.
Hypothesis Hlevel : (0 < level_of_noise)%Qc.

Local Abbreviation returns := (may_return chars command vocab_trie level_of_noise).

(** The run whose first raw draws are [kind], 0 and then [draws]
    applies a mistake of that kind. *)
Lemma applied_run (kind : nat) (draws : list N) :
  (kind < 4)%nat →
  let rs := tape_of (N.of_nat kind :: 0%N :: draws) in
  drawn_kind rs = kind ∧ (drawn_noise rs < level_of_noise)%Qc.
Proof.
  intros Hk rs. split.
  - unfold drawn_kind, rs. simpl. rewrite N.mod_small by lia. lia.
  - unfold drawn_noise, rs. simpl. by rewrite noise_of_0.
Qed.

Lemma returns_swap result :
  returns 0%nat result ↔
  ∃ p c, (p < length prefix)%nat ∧ c ∈ chars
         ∧ result = take p command ++ [c] ++ drop (S p) command.
Proof.
  split.
  - intros (rs & rs' & Hkind & Hnoise & Hrun).
    rewrite (create_mistakes_applied _ _ _ _ _ prefix) in Hrun by done.
    rewrite Rand_bind_eq, Hkind in Hrun.
    destruct (random.randint _ _) as [[p rs3]|e] eqn:Hp; [|done].
    apply randint_range in Hp as (_ & Hp & _).
    rewrite Rand_bind_eq in Hrun.
    destruct (random.choice chars rs3) as [[c rs4]|e] eqn:Hc; [|done].
    apply choice_Ok in Hc as (i & Hi & _). injection Hrun as <- _.
    exists p, c. split_and!; [unfold len in Hp; lia| |by rewrite Nat.add_1_r].
    by eapply list_elem_of_lookup_2.
  - intros (p & c & Hp & [i Hi]%list_elem_of_lookup & ->).
    destruct (applied_run 0 [N.of_nat p; N.of_nat i]) as [Hkind Hnoise]; [lia|].
    eexists _, _. split_and!; [done..|].
    rewrite (create_mistakes_applied _ _ _ _ _ prefix) by done.
    rewrite Rand_bind_eq, (randint_onto _ _ p);
      [|unfold len; lia|done].
    rewrite Hkind, Rand_bind_eq, (choice_onto _ _ i c) by done.
    by rewrite Nat.add_1_r.
Qed.

Lemma returns_deletion result :
  returns 1%nat result ↔
  ∃ p, (p < length prefix)%nat ∧ result = take p command ++ drop (S p) command.
Proof.
  split.
  - intros (rs & rs' & Hkind & Hnoise & Hrun).
    rewrite (create_mistakes_applied _ _ _ _ _ prefix) in Hrun by done.
    rewrite Rand_bind_eq, Hkind in Hrun.
    destruct (random.randint _ _) as [[p rs3]|e] eqn:Hp; [|done].
    apply randint_range in Hp as (_ & Hp & _). injection Hrun as <- _.
    exists p. split; [unfold len in Hp; lia|by rewrite Nat.add_1_r].
  - intros (p & Hp & ->).
    destruct (applied_run 1 [N.of_nat p]) as [Hkind Hnoise]; [lia|].
    eexists _, _. split_and!; [done..|].
    rewrite (create_mistakes_applied _ _ _ _ _ prefix) by done.
    rewrite Rand_bind_eq, (randint_onto _ _ p);
      [|unfold len; lia|done].
    rewrite Hkind. by rewrite Nat.add_1_r.
Qed.

Lemma returns_addition result :
  returns 2%nat result ↔
  ∃ p c, (p < length prefix)%nat ∧ c ∈ chars
         ∧ result = take p command ++ [c] ++ drop p command.
Proof.
  split.
  - intros (rs & rs' & Hkind & Hnoise & Hrun).
    rewrite (create_mistakes_applied _ _ _ _ _ prefix) in Hrun by done.
    rewrite Rand_bind_eq, Hkind in Hrun.
    destruct (random.randint _ _) as [[p rs3]|e] eqn:Hp; [|done].
    apply randint_range in Hp as (_ & Hp & _).
    rewrite Rand_bind_eq in Hrun.
    destruct (random.choice chars rs3) as [[c rs4]|e] eqn:Hc; [|done].
    apply choice_Ok in Hc as (i & Hi & _). injection Hrun as <- _.
    exists p, c. split_and!; [unfold len in Hp; lia| |done].
    by eapply list_elem_of_lookup_2.
  - intros (p & c & Hp & [i Hi]%list_elem_of_lookup & ->).
    destruct (applied_run 2 [N.of_nat p; N.of_nat i]) as [Hkind Hnoise]; [lia|].
    eexists _, _. split_and!; [done..|].
    rewrite (create_mistakes_applied _ _ _ _ _ prefix) by done.
    rewrite Rand_bind_eq, (randint_onto _ _ p);
      [|unfold len; lia|done].
    by rewrite Hkind, Rand_bind_eq, (choice_onto _ _ i c) by done.
Qed.

Lemma returns_transposition result :
  returns 3%nat result ↔
  prefix ≠ []
  ∧ ∃ p x y, Z.of_nat p < len command - 1
             ∧ command !! p = Some x ∧ command !! S p = Some y
             ∧ result = take p command ++ [y; x] ++ drop (S (S p)) command.
Proof.
  split.
  - intros (rs & rs' & Hkind & Hnoise & Hrun).
    rewrite (create_mistakes_applied _ _ _ _ _ prefix) in Hrun by done.
    rewrite Rand_bind_eq, Hkind in Hrun.
    destruct (random.randint _ _) as [[p0 rs3]|e] eqn:Hp0; [|done].
    apply randint_range in Hp0 as (Hprefix%len_pos_nonempty & _ & _).
    split; [done|]. rewrite Rand_bind_eq in Hrun.
    destruct (random.randint _ rs3) as [[p rs4]|e] eqn:Hp; [|done].
    apply randint_range in Hp as (_ & Hp & _).
    rewrite !Rand_bind_eq in Hrun. unfold list_getitem in Hrun.
    rewrite Nat.add_1_r in Hrun.
    destruct (command !! S p) as [y|] eqn:Hy; [|done]. simpl in Hrun.
    destruct (command !! p) as [x|] eqn:Hx; [|done]. simpl in Hrun.
    injection Hrun as <- _. exists p, x, y. split_and!; [done..|].
    by replace (p + 2)%nat with (S (S p)) by lia.
  - intros (Hprefix%len_pos_nonempty & p & x & y & Hp & Hx & Hy & ->).
    destruct (applied_run 3 [0%N; N.of_nat p]) as [Hkind Hnoise]; [lia|].
    eexists _, _. split_and!; [done..|].
    rewrite (create_mistakes_applied _ _ _ _ _ prefix) by done.
    rewrite Rand_bind_eq, (randint_onto _ _ 0); [|lia|done].
    rewrite Hkind, Rand_bind_eq, (randint_onto _ _ p) by done.
    unfold list_getitem. rewrite Nat.add_1_r, Rand_bind_eq, Hy, lift_Ok.
    rewrite Rand_bind_eq, Hx, lift_Ok.
    by replace (p + 2)%nat with (S (S p)) by lia.
Qed.

End create_mistakes_positions.



(** ** The character inventory of a vocabulary *)

Section get_chars_facts.

Lemma elem_of_accumulated (lines : list (list N)) (s0 : gset N) c :
  c ∈ foldl (λ (chars : gset N) line, chars ∪ set (rstrip line)) s0 lines
  ↔ c ∈ s0 ∨ ∃ line, line ∈ lines ∧ c ∈ rstrip line.
Proof.
  revert s0. induction lines as [|l lines IH]; intros s0; simpl.
  - split; [by left|]. intros [?|(line & Hin%elem_of_nil & _)]; done.
  - rewrite IH, elem_of_union. unfold set. rewrite elem_of_list_to_set. split.
    + intros [[?|?]|(line & ? & ?)]; [by left| |].
      * right. exists l. split; [by left|done].
      * right. exists line. split; [by right|done].
    + intros [?|(line & [->|?]%elem_of_cons & ?)].
      * by left; left.
      * by left; right.
      * right. by exists line.
Qed.

End get_chars_facts.

(** C5, as stated, fails: [get_chars] returns [list(chars)] of a set and
    never sorts.  When the set of "ab" is iterated with "b" first, the
    list returned is "ba". *)
Lemma get_chars_not_sorted :
  let descending := λ s : gset N, reverse (sorted (elements s)) in
  set_iteration descending
  ∧ get_chars descending (py "ab" ++ [10%N]) = py "ba"
  ∧ ¬ Sorted N.le (get_chars descending (py "ab" ++ [10%N])).
Proof.
  cbv zeta. split_and!.
  - intros s. cbn beta. by rewrite reverse_Permutation, sorted_Permutation.
  - by vm_compute.
  - assert (get_chars (λ s : gset N, reverse (sorted (elements s)))
              (py "ab" ++ [10%N]) = [98%N; 97%N]) as -> by (by vm_compute).
    intros Hs. apply Sorted_inv in Hs as [_ Hhd].
    apply HdRel_inv in Hhd. vm_compute in Hhd. done.
Qed.

(** C5 (amended): whatever the order in which the set is iterated,
    [get_chars] returns a list without duplicates of exactly the
    characters that appear in a line of the vocabulary once the trailing
    whitespace of the line is stripped; the list is in no particular
    order.  The order is fixed later, by the [Seq2seq] constructor, whose
    inventory is the strictly increasing arrangement of that list. *)
Theorem get_chars_deduplicated list_of_set vocab :
  set_iteration list_of_set →
  let chars0 := get_chars list_of_set vocab in
  NoDup chars0
  ∧ (∀ c, c ∈ chars0 ↔ ∃ line, line ∈ readlines vocab ∧ c ∈ rstrip line)
  ∧ chars (Seq2seq_init chars0) ≡ₚ chars0
  ∧ StronglySorted N.lt (chars (Seq2seq_init chars0)).
Proof.
  intros Hiter. cbv zeta.
  assert (Hnd : NoDup (get_chars list_of_set vocab)).
  { unfold get_chars. rewrite (Hiter _). apply NoDup_elements. }
  split_and!.
  - done.
  - intros c. unfold get_chars. rewrite (Hiter _), elem_of_elements.
    rewrite elem_of_accumulated. split; [|by right].
    intros [Hempty|?]; [|done]. by apply not_elem_of_empty in Hempty.
  - by apply inventory_Permutation.
  - apply chars_strictly_sorted.
Qed.

Lemma get_chars_deduplicated_witness :
  NoDup (get_chars elements (py "ba" ++ [10%N] ++ py " c  " ++ [10%N])).
Proof.
  apply (get_chars_deduplicated elements (py "ba" ++ [10%N] ++ py " c  " ++ [10%N])).
  intros s. reflexivity.
Defined.

(** ** The corpus filter *)

Section corpus_facts.

Lemma lstrip_length s : (length (lstrip s) ≤ length s)%nat.
Proof.
  induction s as [|c s IH]; simpl; [done|].
  destruct (isspace c); simpl; lia.
Qed.

Lemma strip_length s : (length (strip s) ≤ length s)%nat.
Proof.
  unfold strip, rstrip. rewrite length_reverse.
  etrans; [apply lstrip_length|]. rewrite length_reverse.
  apply lstrip_length.
Qed.

Lemma lstrip_suffix s : lstrip s `suffix_of` s.
Proof.
  induction s as [|c s IH]; simpl; [done|].
  destruct (isspace c); [by apply suffix_cons_r|done].
Qed.

Lemma rstrip_shorter s c :
  last s = Some c → isspace c = true → (length (rstrip s) < length s)%nat.
Proof.
  intros [s' ->]%last_Some Hc. unfold rstrip.
  rewrite reverse_snoc, length_reverse. simpl. rewrite Hc.
  pose proof (lstrip_length (reverse s')) as Hle.
  rewrite length_reverse in Hle. rewrite length_app. simpl. lia.
Qed.

(** A line that ends in whitespace, such as its newline, is strictly
    longer than its command. *)
Lemma strip_shorter s c :
  last s = Some c → isspace c = true → (length (strip s) < length s)%nat.
Proof.
  intros Hlast Hc. unfold strip.
  destruct (lstrip_suffix s) as [k Hk].
  destruct (lstrip s) as [|x l] eqn:Hl.
  - destruct s; [done|]. simpl. lia.
  - assert (last (x :: l) = Some c) as Hlast'.
    { by rewrite Hk, last_app_cons in Hlast. }
    pose proof (rstrip_shorter _ _ Hlast' Hc) as Hlt.
    pose proof (lstrip_length s) as Hle. rewrite Hl in Hle. lia.
Qed.

Lemma elem_of_corpus_lines corpus file_delimiter gConfig command :
  command ∈ corpus_lines corpus file_delimiter gConfig
  ↔ ∃ line, line ∈ readlines corpus ∧ line ≠ file_delimiter
            ∧ len line ≤ Config.max_cmd_len gConfig
            ∧ command = strip line.
Proof.
  unfold corpus_lines. rewrite list_elem_of_fmap. split.
  - intros (line & -> & [[? ?] ?]%list_elem_of_filter). by exists line.
  - intros (line & ? & ? & ? & ->). exists line. split; [done|].
    by apply list_elem_of_filter.
Qed.

End corpus_facts.

(** C7, as stated, fails: the filter measures the line as read, with its
    newline, before stripping it.  With [max_cmd_len] 3 the corpus line
    "abc" followed by a newline holds a command of length exactly 3 that
    differs from the delimiter, and it is not kept. *)
Lemma corpus_filter_drops_full_length_command :
  let gConfig := Config.mk 3 (py "$") 0%Qc 1 false in
  let corpus := py "abc" ++ [10%N] in
  readlines corpus = [py "abc" ++ [10%N]]
  ∧ strip (py "abc" ++ [10%N]) = py "abc"
  ∧ py "abc" ≠ py "#"
  ∧ len (py "abc") = Config.max_cmd_len gConfig
  ∧ py "abc" ∉ corpus_lines corpus (py "#") gConfig.
Proof.
  cbv zeta. split_and!; [by vm_compute..|].
  assert (corpus_lines (py "abc" ++ [10%N]) (py "#")
            (Config.mk 3 (py "$") 0%Qc 1 false) = []) as -> by (by vm_compute).
  apply not_elem_of_nil.
Qed.

(** C7 (amended): on every iteration the filter keeps exactly the lines
    whose text as read (the terminating newline and any surrounding
    whitespace included) differs from the delimiter and has at most
    [max_cmd_len] characters; a kept line is stripped whole, never
    truncated, so every command eligible for sampling has length at most
    [max_cmd_len], and the command of a kept line that ends in a newline
    is strictly shorter than [max_cmd_len]. *)
Theorem corpus_filter_on_raw_lines corpus file_delimiter gConfig :
  (∀ command,
     command ∈ corpus_lines corpus file_delimiter gConfig
     ↔ ∃ line, line ∈ readlines corpus ∧ line ≠ file_delimiter
               ∧ len line ≤ Config.max_cmd_len gConfig
               ∧ command = strip line)
  ∧ (∀ command,
       command ∈ corpus_lines corpus file_delimiter gConfig →
       len command ≤ Config.max_cmd_len gConfig)
  ∧ (∀ line,
       line ∈ readlines corpus → line ≠ file_delimiter →
       len line ≤ Config.max_cmd_len gConfig → last line = Some 10%N →
       strip line ∈ corpus_lines corpus file_delimiter gConfig
       ∧ len (strip line) < Config.max_cmd_len gConfig).
Proof.
  split_and!.
  - apply elem_of_corpus_lines.
  - intros command (line & _ & _ & Hlen & ->)%elem_of_corpus_lines.
    pose proof (strip_length line). unfold len in *. lia.
  - intros line Hin Hne Hlen Hlast. split.
    + apply elem_of_corpus_lines. by exists line.
    + pose proof (strip_shorter line 10%N Hlast eq_refl). unfold len in *. lia.
Qed.

Lemma corpus_filter_on_raw_lines_witness :
  corpus_lines (py "ab" ++ [10%N] ++ py "#" ++ [10%N] ++ py "abcd" ++ [10%N] ++ py " cd")
    (py "#" ++ [10%N]) (Config.mk 3 (py "$") 0%Qc 1 false)
  = [py "ab"; py "cd"]
  ∧ len (py "cd") ≤ 3.
Proof.
  split; [by vm_compute|].
  destruct (corpus_filter_on_raw_lines
              (py "ab" ++ [10%N] ++ py "#" ++ [10%N] ++ py "abcd" ++ [10%N] ++ py " cd")
              (py "#" ++ [10%N]) (Config.mk 3 (py "$") 0%Qc 1 false))
    as (_ & Hlen & _).
  apply Hlen. by_computation.
Defined.

(** ** The batch generator *)

Section generator_facts.

Lemma Rand_bind_Ok {A B} (m : Rand A) (f : A → Rand B) rs r :
  (m ≫= f) rs = Ok r → ∃ a rs1, m rs = Ok (a, rs1) ∧ f a rs1 = Ok r.
Proof.
  rewrite Rand_bind_eq. destruct (m rs) as [[a rs1]|e]; [|done]. eauto.
Qed.

Lemma lift_inv {A} (r : result A) rs a rs' :
  lift r rs = Ok (a, rs') → r = Ok a ∧ rs' = rs.
Proof. destruct r; simpl; [|done]. by intros [= -> ->]. Qed.

Lemma assert_inv (P : Prop) `{Decision P} rs u rs' :
  lift (assert (bool_decide P)) rs = Ok (u, rs') → P ∧ rs' = rs.
Proof.
  intros [Hb ->]%lift_inv. split; [|done]. unfold assert in Hb.
  case_bool_decide; done.
Qed.

Lemma tensor_of_well_shaped sh f : well_shaped (tensor_of sh f).
Proof.
  destruct sh as [[d0 d1] d2]. unfold well_shaped, tensor_of; simpl.
  split; [apply length_tabulate|]. unfold tabulate at 1.
  apply Forall_fmap, Forall_true. intros i; simpl.
  split; [apply length_tabulate|]. unfold tabulate at 1.
  apply Forall_fmap, Forall_true. intros j; simpl. apply length_tabulate.
Qed.

(** The shape of an array [encode] returns. *)
Lemma encode_Ok_shape chars0 commands max_cmd_len X :
  encode (Seq2seq_init chars0) commands max_cmd_len = Ok X →
  0 ≤ max_cmd_len
  ∧ shape3 X = (length commands, Z.to_nat max_cmd_len, size (set chars0))
  ∧ well_shaped X.
Proof.
  intros HX. destruct (encode_Ok_fits _ _ _ _ HX) as [Hm Hfits].
  destruct (encode_fits chars0 commands max_cmd_len Hm Hfits) as (f & Hf & _).
  rewrite HX in Hf. injection Hf as ->. split_and!; [done| |].
  - unfold tensor_of. cbn [shape3]. f_equal. by rewrite <-alphabet_size.
  - apply tensor_of_well_shaped.
Qed.

Lemma generator_iteration_shapes chars0 corpus file_delimiter vocab_trie
    gConfig rs X y rs' :
  generator_iteration (Seq2seq_init chars0) chars0 corpus file_delimiter
    vocab_trie gConfig rs = Ok ((X, y), rs') →
  shape3 X = shape3 y
  ∧ (Z.of_nat (shape3 X).1.1, Z.of_nat (shape3 X).1.2, (shape3 X).2)
    = (Config.batch_size gConfig, Config.max_cmd_len gConfig,
       size (set chars0))
  ∧ well_shaped X ∧ well_shaped y.
Proof.
  unfold generator_iteration. cbv zeta.
  intros ([commands misspelled] & rs1 & _ & Hrun)%Rand_bind_Ok.
  cbn [fst snd] in Hrun.
  apply Rand_bind_Ok in Hrun as (? & rs2 & [Hlen ->]%assert_inv & Hrun).
  apply Rand_bind_Ok in Hrun as (? & rs3 & [Hbatch ->]%assert_inv & Hrun).
  apply Rand_bind_Ok in Hrun as (X' & rs4 & [HX ->]%lift_inv & Hrun).
  apply Rand_bind_Ok in Hrun as (y' & rs5 & [Hy ->]%lift_inv & Hrun).
  injection Hrun as -> -> ->.
  apply encode_Ok_shape in HX as (Hm & HshX & HwX).
  apply encode_Ok_shape in Hy as (_ & Hshy & Hwy).
  unfold len in *. rewrite HshX, Hshy. simpl.
  assert (length misspelled = length commands) as -> by lia.
  split_and!; [done| |done..].
  rewrite Z2Nat.id by done. by rewrite Hbatch.
Qed.

Lemma generator_loop_shapes chars0 corpus file_delimiter vocab_trie
    gConfig n t rs pairs rs' :
  generator_loop (Seq2seq_init chars0) chars0 corpus file_delimiter
    vocab_trie gConfig t n rs = Ok (pairs, rs') →
  length pairs = n
  ∧ Forall (λ Xy,
      shape3 Xy.1 = shape3 Xy.2
      ∧ (Z.of_nat (shape3 Xy.1).1.1, Z.of_nat (shape3 Xy.1).1.2,
         (shape3 Xy.1).2)
        = (Config.batch_size gConfig, Config.max_cmd_len gConfig,
           size (set chars0))
      ∧ well_shaped Xy.1 ∧ well_shaped Xy.2) pairs.
Proof.
  revert t rs pairs rs'. induction n as [|n IH]; intros t rs pairs rs'.
  - intros [= <- _]. by split.
  - cbn [generator_loop].
    intros ([X y] & rs1 & Hit & Hrun)%Rand_bind_Ok.
    apply Rand_bind_Ok in Hrun as (rest & rs2 & Hrest & Hrun).
    injection Hrun as <- _.
    apply generator_iteration_shapes in Hit.
    apply IH in Hrest as [Hlen Hall]. split; [simpl; by rewrite Hlen|].
    by constructor.
Qed.

(** *** With no noise every pull yields *)

Lemma noise_of_nonneg raw : (0 ≤ noise_of raw)%Qc.
Proof.
  unfold noise_of, Qcle. cbn [this Q2Qc]. rewrite !Qred_correct.
  unfold Qle. cbn [Qnum Qden]. rewrite Z.mul_0_l, Z.mul_1_r.
  apply N2Z.is_nonneg.
Qed.

(** With a level of noise of 0 the command comes back unchanged. *)
Lemma create_mistakes_no_noise chars0 command vocab_trie level_of_noise rs :
  (level_of_noise ≤ 0)%Qc →
  ∃ rs', create_mistakes chars0 command vocab_trie level_of_noise rs
         = Ok (command, rs').
Proof.
  intros Hlevel. destruct (vocab_trie command) as [prefix|] eqn:Hsome.
  - rewrite (create_mistakes_quiet _ _ _ _ _ prefix); [eauto|done|].
    intros Hlt. apply (Qclt_not_le _ _ Hlt).
    etrans; [exact Hlevel|apply noise_of_nonneg].
  - rewrite create_mistakes_not_found by done. eauto.
Qed.

Lemma str_mul_length s n :
  length (str_mul s n) = (Z.to_nat n * length s)%nat.
Proof.
  unfold str_mul. induction (Z.to_nat n) as [|k IH]; simpl; [done|].
  rewrite length_app, IH. lia.
Qed.

Lemma choice_nonempty {A} (a : list A) rs :
  a ≠ [] → ∃ x, x ∈ a ∧ random.choice a rs = Ok (x, advance rs).
Proof.
  intros Ha%len_pos_nonempty. unfold random.choice.
  rewrite Rand_bind_eq, randint_pos by done.
  match goal with |- context [list_getitem _ ?i] =>
    destruct (lookup_lt_is_Some_2 a i) as [x Hx] end.
  { pose proof (N.mod_upper_bound (tape rs (cursor rs)) (Z.to_N (len a))).
    unfold len in *. lia. }
  exists x. split; [by eapply list_elem_of_lookup_2|].
  unfold list_getitem. by rewrite Hx.
Qed.

Section no_noise.
Context (chars0 : list N) (file_delimiter : list N)
        (vocab_trie : list N → option (list N)) (gConfig : Config.t).
Hypothesis Hlevel : (Config.level_of_noise gConfig ≤ 0)%Qc.
Hypothesis Hpadding : length (Config.padding gConfig) = 1%nat.

Local Abbreviation M := (Z.to_nat (Config.max_cmd_len gConfig)).

Lemma generator_sample_no_noise lines buffers rs :
  lines ≠ [] → Forall (λ l, len l ≤ Config.max_cmd_len gConfig) lines →
  ∃ command misspelled rs',
    generator_sample chars0 lines vocab_trie gConfig buffers rs
    = Ok ((buffers.1 ++ [command], buffers.2 ++ [misspelled]), rs')
    ∧ length command = M ∧ length misspelled = M.
Proof.
  intros Hne Hlines. unfold generator_sample.
  destruct (choice_nonempty lines rs Hne) as (c & Hc & Hchoice).
  rewrite Forall_forall in Hlines. specialize (Hlines c Hc).
  rewrite Rand_bind_eq, Hchoice. unfold generate_input.
  destruct (create_mistakes_no_noise chars0 c vocab_trie
              (Config.level_of_noise gConfig) (advance rs) Hlevel)
    as [rs1 Hrun].
  rewrite !Rand_bind_eq, Hrun. cbn [mret Rand_ret fst snd]. cbv zeta.
  set (padded := c ++ str_mul _ _).
  assert (length padded = M) as Hlen.
  { unfold padded. rewrite length_app, str_mul_length, Hpadding.
    unfold len in *. lia. }
  rewrite Rand_bind_eq. unfold assert.
  rewrite bool_decide_true by (unfold len in *; lia). rewrite lift_Ok.
  eexists padded, _, rs1. split; [done|]. split; [done|].
  destruct (Config.inverted gConfig); [by rewrite length_reverse|done].
Qed.

Lemma for_range_samples_no_noise lines k buffers rs :
  lines ≠ [] → Forall (λ l, len l ≤ Config.max_cmd_len gConfig) lines →
  Forall (λ s, length s = M) buffers.1 → Forall (λ s, length s = M) buffers.2 →
  ∃ buffers' rs',
    for_range k (generator_sample chars0 lines vocab_trie gConfig) buffers rs
    = Ok (buffers', rs')
    ∧ length buffers'.1 = (length buffers.1 + k)%nat
    ∧ length buffers'.2 = (length buffers.2 + k)%nat
    ∧ Forall (λ s, length s = M) buffers'.1
    ∧ Forall (λ s, length s = M) buffers'.2.
Proof.
  intros Hne Hlines. revert buffers rs.
  induction k as [|k IH]; intros buffers rs H1 H2.
  - exists buffers, rs. split_and!; [done|lia|lia|done|done].
  - cbn [for_range].
    destruct (generator_sample_no_noise lines buffers rs Hne Hlines)
      as (c & mc & rs1 & Hrun & Hc & Hmc).
    rewrite Rand_bind_eq, Hrun.
    destruct (IH (buffers.1 ++ [c], buffers.2 ++ [mc]) rs1)
      as (buffers' & rs' & Hrun' & Hl1 & Hl2 & Ha1 & Ha2).
    { simpl. apply Forall_app. by split; [|constructor]. }
    { simpl. apply Forall_app. by split; [|constructor]. }
    exists buffers', rs'. split; [done|].
    simpl in Hl1, Hl2. rewrite length_app in Hl1, Hl2. simpl in Hl1, Hl2.
    split_and!; [lia|lia|done|done].
Qed.

Lemma encode_fixed_width commands :
  0 ≤ Config.max_cmd_len gConfig →
  Forall (λ s, length s = M) commands →
  ∃ X, encode (Seq2seq_init chars0) commands (Config.max_cmd_len gConfig)
       = Ok X.
Proof.
  intros Hm Hall.
  destruct (encode_fits chars0 commands (Config.max_cmd_len gConfig) Hm)
    as (f & Hf & _); [|eauto].
  intros i cmd j c Hi Hj _. rewrite Forall_forall in Hall.
  assert (length cmd = M) as Hlen by (by eapply Hall, list_elem_of_lookup_2).
  apply lookup_lt_Some in Hj. lia.
Qed.

Lemma generator_iteration_no_noise corpus rs :
  0 ≤ Config.batch_size gConfig →
  corpus_lines corpus file_delimiter gConfig ≠ [] →
  ∃ Xy rs',
    generator_iteration (Seq2seq_init chars0) chars0 corpus file_delimiter
      vocab_trie gConfig rs = Ok (Xy, rs').
Proof.
  intros Hbatch Hne. unfold generator_iteration. cbv zeta.
  assert (Hlines : Forall (λ l, len l ≤ Config.max_cmd_len gConfig)
                     (corpus_lines corpus file_delimiter gConfig)).
  { apply Forall_forall. intros command Hin.
    apply elem_of_corpus_lines in Hin as (line & _ & _ & Hlen & ->).
    pose proof (strip_length line). unfold len in *. lia. }
  assert (Hm : 0 ≤ Config.max_cmd_len gConfig).
  { destruct (corpus_lines corpus file_delimiter gConfig) as [|l ls]; [done|].
    apply Forall_cons in Hlines as [Hl _]. unfold len in Hl. lia. }
  destruct (for_range_samples_no_noise _
              (Z.to_nat (Config.batch_size gConfig)) ([], []) rs Hne Hlines)
    as ([commands misspelled] & rs1 & Hrun & Hl1 & Hl2 & Ha1 & Ha2);
    [by constructor..|].
  simpl in Hl1, Hl2, Ha1, Ha2.
  rewrite Rand_bind_eq, Hrun. cbn [fst snd].
  rewrite Rand_bind_eq. unfold assert.
  rewrite bool_decide_true by (unfold len; lia). rewrite lift_Ok.
  rewrite Rand_bind_eq, bool_decide_true by (unfold len; lia). rewrite lift_Ok.
  destruct (encode_fixed_width misspelled Hm Ha2) as [X HX].
  destruct (encode_fixed_width commands Hm Ha1) as [y Hy].
  rewrite Rand_bind_eq, HX, lift_Ok, Rand_bind_eq, Hy, lift_Ok. eauto.
Qed.

(** With a level of noise of 0, a one-character padding and a corpus
    that always keeps a line, the generator yields at every pull. *)
Lemma generator_yields corpus n rs :
  0 ≤ Config.batch_size gConfig →
  (∀ t, corpus_lines (corpus t) file_delimiter gConfig ≠ []) →
  ∃ pairs rs',
    generator chars0 corpus file_delimiter vocab_trie gConfig n rs
    = Ok (pairs, rs').
Proof.
  intros Hbatch Hne. unfold generator. cbv zeta. generalize 0%nat as t.
  revert rs. induction n as [|n IH]; intros rs t; [by eexists _, _|].
  cbn [generator_loop].
  destruct (generator_iteration_no_noise (corpus t) rs Hbatch (Hne t))
    as (Xy & rs1 & Hit).
  rewrite Rand_bind_eq, Hit.
  destruct (IH rs1 (S t)) as (rest & rs2 & Hrest).
  rewrite Rand_bind_eq, Hrest. by eexists _, _.
Qed.

End no_noise.

End generator_facts.

(** C8: every pair [(X, y)] the generator yields has
    [X.shape == y.shape == (batch_size, max_cmd_len, alphabet_size)],
    [alphabet_size] being the number of distinct characters handed to the
    generator, and the cells of both arrays fill that shape.  The
    precondition of the claim always holds: the filter keeps no line
    longer than [max_cmd_len] ([elem_of_corpus_lines], [strip_length]),
    and with no noise every pull yields ([generator_yields]). *)
Theorem generator_batch_shapes chars0 corpus file_delimiter vocab_trie
    gConfig n rs pairs rs' :
  generator chars0 corpus file_delimiter vocab_trie gConfig n rs
  = Ok (pairs, rs') →
  length pairs = n
  ∧ Forall (λ Xy,
      shape3 Xy.1 = shape3 Xy.2
      ∧ (Z.of_nat (shape3 Xy.1).1.1, Z.of_nat (shape3 Xy.1).1.2,
         (shape3 Xy.1).2)
        = (Config.batch_size gConfig, Config.max_cmd_len gConfig,
           size (set chars0))
      ∧ well_shaped Xy.1 ∧ well_shaped Xy.2) pairs.
Proof. unfold generator. cbv zeta. apply generator_loop_shapes. Qed.

Lemma generator_batch_shapes_witness :
  let gConfig := Config.mk 4 (py "$") 1%Qc 2 true in
  ∃ pairs rs',
    generator (py "abcls- ") (λ _, py "ls" ++ [10%N] ++ py "ab" ++ [10%N])
      (py "#") (λ command, Some (take 1 command)) gConfig 2
      (tape_of [0; 1; 0; 0; 1; 0; 0; 0; 2; 1; 3; 0; 0; 0; 0; 2; 0; 0; 3]%N)
    = Ok (pairs, rs')
    ∧ length pairs = 2%nat
    ∧ Forall (λ Xy, shape3 Xy.1 = shape3 Xy.2
                    ∧ (Z.of_nat (shape3 Xy.1).1.1, Z.of_nat (shape3 Xy.1).1.2,
                       (shape3 Xy.1).2) = (2, 4, 7%nat)
                    ∧ well_shaped Xy.1 ∧ well_shaped Xy.2) pairs.
Proof.
  cbv zeta. eexists _, _. split; [vm_compute; reflexivity|].
  eapply (generator_batch_shapes (py "abcls- ")
            (λ _, py "ls" ++ [10%N] ++ py "ab" ++ [10%N]) (py "#")
            (λ command, Some (take 1 command))
            (Config.mk 4 (py "$") 1%Qc 2 true) 2
            (tape_of [0; 1; 0; 0; 1; 0; 0; 0; 2; 1; 3; 0; 0; 0; 0; 2; 0; 0; 3]%N)).
  vm_compute. reflexivity.
Defined.

(** * Further properties of the module *)

(** ** Loops over positions and over elements *)

Section loops.

(** A loop that subscripts a list at consecutive positions runs over the
    elements of that segment. *)
Lemma for_in_seq_lookup {A S} (pre cs rest : list A)
    (g : S → A → result S) acc :
  for_in (seq (length pre) (length cs))
    (λ acc i, x ← list_getitem (pre ++ cs ++ rest) i; g acc x) acc
  = for_in cs g acc.
Proof.
  revert pre acc. induction cs as [|x cs IH]; intros pre acc; [done|].
  cbn [length seq for_in].
  assert (list_getitem (pre ++ (x :: cs) ++ rest) (length pre) = Ok x) as ->.
  { unfold list_getitem. by rewrite lookup_app_r, Nat.sub_diag by done. }
  rewrite bind_Ok. cbn beta. destruct (g acc x) as [acc'|e]; [|done].
  rewrite !bind_Ok. cbn beta.
  specialize (IH (pre ++ [x]) acc').
  rewrite length_app, Nat.add_1_r, <-app_assoc in IH. exact IH.
Qed.

Lemma decode_elements (self : Seq2seq) (cs : list nat) (acc : list N) :
  for_in cs (λ command x,
               c ← dict_getitem (indices_char self) x; Ok (command ++ [c])) acc
  = match mapM (λ x, indices_char self !! x) cs with
    | Some l => Ok (acc ++ l)
    | None => Raise KeyError
    end.
Proof.
  revert acc. induction cs as [|x cs IH]; intros acc.
  - simpl. by rewrite app_nil_r.
  - cbn [for_in mapM].
    assert (dict_getitem (indices_char self) x
            = match indices_char self !! x with
              | Some c => Ok c
              | None => Raise KeyError
              end) as -> by done.
    destruct (indices_char self !! x) as [c|]; [|done].
    rewrite !bind_Ok. cbn beta. rewrite IH. cbn.
    destruct (mapM _ cs) as [l|]; [|done]. cbn. by rewrite <-app_assoc.
Qed.

(** [decode]'s loop over a segment of the class indices: the characters
    of the segment, or [KeyError] at the first index outside the
    inventory. *)
Lemma decode_loop_segment (self : Seq2seq) (pre cs rest : list nat) :
  decode_loop self (pre ++ cs ++ rest) (seq (length pre) (length cs))
  = match mapM (λ x, indices_char self !! x) cs with
    | Some l => Ok l
    | None => Raise KeyError
    end.
Proof.
  unfold decode_loop.
  rewrite (for_in_seq_lookup pre cs rest
             (λ command x,
                c ← dict_getitem (indices_char self) x; Ok (command ++ [c]))).
  by rewrite decode_elements.
Qed.

Lemma foldl_min_spec l x :
  let r := foldl Nat.min x l in
  r ∈ x :: l ∧ ∀ y, y ∈ x :: l → (r ≤ y)%nat.
Proof.
  revert x. induction l as [|z l IH]; intros x; simpl.
  - split; [by left|]. intros y ->%list_elem_of_singleton. done.
  - destruct (IH (x `min` z)%nat) as [Hin Hlb]. split.
    + apply elem_of_cons in Hin as [Heq|Hin]; [|by do 2 right].
      rewrite Heq. destruct (Nat.min_spec x z) as [[_ ->]|[_ ->]].
      * by left.
      * right. by left.
    + intros y Hy. assert (foldl Nat.min (x `min` z) l ≤ x `min` z)%nat
        by (apply Hlb; by left).
      apply elem_of_cons in Hy as [->|[->|Hy]%elem_of_cons]; [lia..|].
      apply Hlb. by right.
Qed.

Lemma amin_Ok l e :
  e ∈ l → (∀ x, x ∈ l → (e ≤ x)%nat) → np.amin l = Ok e.
Proof.
  intros He Hlb. destruct l as [|x l]; [by apply elem_of_nil in He|].
  simpl. f_equal. destruct (foldl_min_spec l x) as [Hin Hr].
  apply Nat.le_antisymm; [by apply Hr|by apply Hlb].
Qed.

End loops.

(** ** The codec on padded, reversed and batched strings *)

Section codec_more.
Context (chars0 : list N).
Local Abbreviation self := (Seq2seq_init chars0).
Local Abbreviation K := (length (chars self)).

Lemma tabulate_code_of (s : list N) (m : nat) :
  (length s ≤ m)%nat →
  tabulate m (code_of self s)
  = (class_of self <$> s) ++ replicate (m - length s) 0%nat.
Proof.
  intros Hlen. apply list_eq; intros j. rewrite lookup_tabulate.
  unfold code_of, class_of.
  destruct (decide (j < length s)%nat) as [Hj|Hj].
  - rewrite decide_True, lookup_app_l by (rewrite ?length_fmap; lia).
    rewrite list_lookup_fmap.
    destruct (lookup_lt_is_Some_2 s j Hj) as [c ->]. done.
  - rewrite lookup_app_r by (rewrite length_fmap; lia).
    rewrite length_fmap, (lookup_ge_None_2 s j) by lia. simpl.
    case_decide.
    + symmetry. apply lookup_replicate_2. lia.
    + symmetry. apply lookup_replicate_None. lia.
Qed.

Lemma class_of_blank (pad : list N) :
  Forall (blank self) pad →
  class_of self <$> pad = replicate (length pad) 0%nat.
Proof.
  induction 1 as [|c pad Hc _ IH]; [done|].
  rewrite fmap_cons, IH. cbn [length replicate]. f_equal. exact Hc.
Qed.

Lemma indices_char_class_of (t : list N) :
  Forall (λ x, x ∈ chars self) t →
  Forall2 (λ x c, indices_char self !! x = Some c) (class_of self <$> t) t.
Proof.
  induction 1 as [|c t Hc _ IH]; simpl; constructor; [|done].
  apply (elem_of_chars chars0), (char_indices_is_Some chars0) in Hc as [k Hk].
  unfold class_of. rewrite Hk. simpl. rewrite indices_char_lookup.
  by apply char_indices_lookup.
Qed.

Lemma indices_char_zeros (r : nat) (c0 : N) :
  chars self !! 0%nat = Some c0 →
  Forall2 (λ x c, indices_char self !! x = Some c)
    (replicate r 0%nat) (replicate r c0).
Proof.
  intros Hc0. induction r as [|r IH]; simpl; constructor; [|done].
  by rewrite indices_char_lookup.
Qed.

Lemma encode_Raise_inv commands max_cmd_len e :
  encode self commands max_cmd_len = Raise e →
  e = if decide (max_cmd_len < 0) then ValueError else IndexError.
Proof.
  unfold encode, np.zeros. case_decide; [by intros [= <-]|].
  rewrite bind_Ok. cbn beta.
  match goal with |- for_in ?il _ ?X = _ → _ =>
    pose proof (encode_cmds_result chars0 il X) as Hres end.
  destruct (for_in _ _ _); [done|]. by intros [= <-].
Qed.

(** The row of sample [i] of a batch, collapsed by [argmax]. *)
Lemma encode_row_argmax commands max_cmd_len X i s :
  encode self commands max_cmd_len = Ok X → commands !! i = Some s →
  K ≠ 0%nat →
  ∃ row, np.getitem X i = Ok row
       ∧ np.argmax row
         = Ok (tabulate (Z.to_nat max_cmd_len) (code_of self s)).
Proof.
  intros HX Hi HK. destruct (encode_Ok_fits _ _ _ _ HX) as [Hm Hfits].
  destruct (encode_fits chars0 commands max_cmd_len Hm Hfits) as (f & Hf & Hspec).
  rewrite HX in Hf. injection Hf as ->.
  rewrite getitem_tensor_of by (by eapply lookup_lt_Some).
  eexists. split; [done|].
  unfold np.argmax; simpl. rewrite decide_False by done. f_equal.
  rewrite fmap_tabulate. apply tabulate_ext; intros j Hj. simpl.
  unfold code_of. destruct (s !! j) as [c|] eqn:Hc; simpl.
  - destruct (char_indices self !! c) as [k|] eqn:Hk; simpl.
    + rewrite (tabulate_one_hot _ _ k).
      { apply argmax1_one_hot. by eapply char_indices_lt. }
      intros k' _. rewrite Hspec. apply char_indices_lookup in Hk. split.
      * intros (cmd & c' & ? & Hc' & Hk'). simplify_eq.
        eapply NoDup_lookup; [apply (chars_NoDup chars0)|done..].
      * intros ->. by exists s, c.
    + rewrite tabulate_all_zero; [apply argmax1_all_zero|].
      intros k' _. apply not_true_is_false. rewrite Hspec.
      intros (cmd & c' & ? & Hc' & Hk'%char_indices_lookup).
      simplify_eq.
  - rewrite tabulate_all_zero; [apply argmax1_all_zero|].
    intros k' _. apply not_true_is_false. rewrite Hspec.
    intros (cmd & c' & ? & Hc' & _). simplify_eq.
Qed.

(** What [decode] makes, without inversion, of class indices that are
    those of [t] followed by zeros only. *)
Lemma decode_classes_forward (t : list N) (r : nat) c k :
  Forall (λ x, x ∈ chars self) t →
  last t = Some c → char_indices self !! c = Some (S k) →
  (end_of_command ← np.amax (np.nonzero ((class_of self <$> t)
                                          ++ replicate r 0%nat));
   decode_loop self ((class_of self <$> t) ++ replicate r 0%nat)
     (range 0 (Z.of_nat end_of_command + 1)))
  = Ok t.
Proof.
  intros Ht Hlast Hc. set (A := _ ++ replicate r 0%nat).
  assert (Hne : (0 < length t)%nat) by (destruct t; [done|simpl; lia]).
  rewrite last_lookup in Hlast.
  rewrite (amax_Ok _ (pred (length t))).
  - rewrite bind_Ok. cbn beta. rewrite range_0.
    replace (S (pred (length t))) with (length (class_of self <$> t))
      by (rewrite length_fmap; lia).
    pose proof (decode_loop_segment self [] (class_of self <$> t)
                  (replicate r 0%nat)) as Hloop.
    cbn [app length] in Hloop. fold A in Hloop. rewrite Hloop.
    by rewrite (proj2 (mapM_Some _ _ _) (indices_char_class_of t Ht)).
  - apply elem_of_nonzero. exists (S k). split; [|done].
    unfold A. rewrite lookup_app_l by (rewrite length_fmap; lia).
    rewrite list_lookup_fmap, Hlast. cbn. unfold class_of. by rewrite Hc.
  - intros j (x & Hj & Hx)%elem_of_nonzero.
    destruct (decide (j < length t)%nat); [lia|]. exfalso. apply Hx.
    unfold A in Hj. rewrite lookup_app_r in Hj by (rewrite length_fmap; lia).
    by apply lookup_replicate in Hj as [-> _].
Qed.

Lemma tabulate_code_of_blank (t pad : list N) (m : nat) :
  (length t ≤ m)%nat → Forall (blank self) pad →
  tabulate m (code_of self (t ++ pad))
  = (class_of self <$> t) ++ replicate (m - length t) 0%nat.
Proof.
  intros Hlen Hpad. apply list_eq; intros j. rewrite lookup_tabulate.
  unfold code_of.
  destruct (decide (j < length t)%nat) as [Hj|Hj].
  - rewrite decide_True, !lookup_app_l by (rewrite ?length_fmap; lia).
    rewrite list_lookup_fmap.
    destruct (lookup_lt_is_Some_2 t j Hj) as [c ->]. done.
  - rewrite (lookup_app_r (_ <$> _)) by (rewrite length_fmap; lia).
    rewrite length_fmap, (lookup_app_r t) by lia.
    assert (default 0%nat (c ← pad !! (j - length t)%nat;
                           char_indices self !! c) = 0%nat) as ->.
    { destruct (pad !! (j - length t)%nat) as [p|] eqn:Hp; [|done]. simpl.
      rewrite Forall_forall in Hpad. apply Hpad.
      by eapply list_elem_of_lookup_2. }
    case_decide.
    + symmetry. apply lookup_replicate_2. lia.
    + symmetry. apply lookup_replicate_None. lia.
Qed.

(** What [decode] makes, with inversion, of class indices that are zeros
    followed by those of [t]: the loop runs to [max_cmd_len], and the
    empty slots after [t] read as the first character. *)
Lemma decode_classes_inverted (b : nat) (t : list N) (r : nat) c t' k c0 :
  t = c :: t' → Forall (λ x, x ∈ chars self) t →
  char_indices self !! c = Some (S k) → chars self !! 0%nat = Some c0 →
  (begin_of_command ← np.amin (np.nonzero (replicate b 0%nat
                                ++ ((class_of self <$> t)
                                    ++ replicate r 0%nat) ++ []));
   decode_loop self (replicate b 0%nat
                     ++ ((class_of self <$> t) ++ replicate r 0%nat) ++ [])
     (range begin_of_command (Z.of_nat (b + length t + r))))
  = Ok (t ++ replicate r c0).
Proof.
  intros -> Ht Hc Hc0. set (A := replicate b 0%nat ++ _).
  rewrite (amin_Ok _ b).
  - rewrite bind_Ok. cbn beta. unfold range.
    replace (Z.to_nat _) with (length ((class_of self <$> c :: t')
                                       ++ replicate r 0%nat))
      by (rewrite length_app, length_fmap, length_replicate; lia).
    pose proof (decode_loop_segment self (replicate b 0%nat)
                  ((class_of self <$> c :: t') ++ replicate r 0%nat) [])
      as Hloop.
    rewrite length_replicate in Hloop. fold A in Hloop. rewrite Hloop.
    rewrite (proj2 (mapM_Some _ _ (c :: t' ++ replicate r c0))); [done|].
    change (c :: t' ++ replicate r c0) with ((c :: t') ++ replicate r c0).
    apply Forall2_app; [by apply indices_char_class_of|].
    by apply indices_char_zeros.
  - apply elem_of_nonzero. exists (S k). split; [|done].
    unfold A. rewrite lookup_app_r by (rewrite length_replicate; lia).
    rewrite length_replicate, Nat.sub_diag. cbn. unfold class_of.
    by rewrite Hc.
  - intros j (x & Hj & Hx)%elem_of_nonzero.
    destruct (decide (b ≤ j)%nat); [done|]. exfalso. apply Hx.
    unfold A in Hj. rewrite lookup_app_l in Hj by (rewrite length_replicate; lia).
    by apply lookup_replicate in Hj as [-> _].
Qed.

End codec_more.

Lemma decode_row_forward chars0 commands max_cmd_len X i t pad c k :
  let self := Seq2seq_init chars0 in
  encode self commands max_cmd_len = Ok X →
  commands !! i = Some (t ++ pad) →
  Forall (λ x, x ∈ chars self) t →
  last t = Some c → char_indices self !! c = Some (S k) →
  Forall (blank self) pad →
  (row ← np.getitem X i; decode self true row max_cmd_len false) = Ok t.
Proof.
  cbv zeta. intros HX Hi Ht Hlast Hc Hpad.
  assert (HK : length (chars (Seq2seq_init chars0)) ≠ 0%nat).
  { apply char_indices_lt in Hc. lia. }
  destruct (encode_row_argmax chars0 commands max_cmd_len X i (t ++ pad)
              HX Hi HK) as (row & -> & Hargmax).
  rewrite bind_Ok. cbn beta. unfold decode. rewrite Hargmax, bind_Ok.
  cbn beta iota.
  assert (Hlen : (length t ≤ Z.to_nat max_cmd_len)%nat).
  { destruct (encode_Ok_fits _ _ _ _ HX) as [Hm Hfits].
    rewrite last_lookup in Hlast.
    assert ((t ++ pad) !! pred (length t) = Some c) as Hj.
    { rewrite lookup_app_l; [done|]. by eapply lookup_lt_Some. }
    apply lookup_lt_Some in Hlast.
    specialize (Hfits i (t ++ pad) (pred (length t)) c Hi Hj).
    apply char_indices_lt in Hc as Hk.
    assert (c ∈ chars0) as Hin.
    { apply (char_indices_is_Some chars0). eauto. }
    specialize (Hfits Hin). lia. }
  rewrite (tabulate_code_of_blank chars0 t pad _ Hlen Hpad).
  by eapply decode_classes_forward.
Qed.

(** X1: in a batch that [encode] accepts, the row of a string [t ++ pad]
    decodes (with [reduction] true, [inverted] false) to [t], when the
    characters of [t] are in the inventory, [t] ends in a character of
    non-zero index, and [pad] is made of characters outside the inventory
    or equal to its first character.  This is how the target rows of the
    generator, padded on the right, read back. *)
Theorem decode_row_strips_padding chars0 commands max_cmd_len X i t pad c k :
  let self := Seq2seq_init chars0 in
  encode self commands max_cmd_len = Ok X →
  commands !! i = Some (t ++ pad) →
  Forall (λ x, x ∈ chars self) t →
  last t = Some c → char_indices self !! c = Some (S k) →
  Forall (blank self) pad →
  (row ← np.getitem X i; decode self true row max_cmd_len false) = Ok t.
Proof. apply decode_row_forward. Qed.

Lemma decode_row_strips_padding_witness :
  ∃ X, encode (Seq2seq_init (py "abc")) [py "ab$$"; py "cb$$$$"] 4 = Ok X
       ∧ (row ← np.getitem X 1;
          decode (Seq2seq_init (py "abc")) true row 4 false) = Ok (py "cb").
Proof.
  eexists. split; [vm_compute; reflexivity|].
  apply (decode_row_strips_padding (py "abc") [py "ab$$"; py "cb$$$$"] 4 _
           1%nat (py "cb") (py "$$$$") 98%N 0).
  - vm_compute. reflexivity.
  - reflexivity.
  - by_computation.
  - reflexivity.
  - vm_compute. reflexivity.
  - repeat constructor.
Defined.

(** X2: with [inverted] true, the row of a string [pad ++ t] (padding in
    front, as for a reversed command) decodes to [t] followed by one copy
    of the inventory's first character for every empty position between
    the end of the string and [max_cmd_len]; it decodes to exactly [t]
    when the string fills the row. *)
Theorem decode_row_inverted chars0 commands max_cmd_len X i pad c t' k c0 :
  let self := Seq2seq_init chars0 in
  encode self commands max_cmd_len = Ok X →
  commands !! i = Some (pad ++ c :: t') →
  Forall (blank self) pad →
  Forall (λ x, x ∈ chars self) (c :: t') →
  char_indices self !! c = Some (S k) →
  chars self !! 0%nat = Some c0 →
  (row ← np.getitem X i; decode self true row max_cmd_len true)
  = Ok ((c :: t')
        ++ replicate (Z.to_nat max_cmd_len - length (pad ++ c :: t')) c0).
Proof.
  cbv zeta. intros HX Hi Hpad Ht Hc Hc0.
  assert (HK : length (chars (Seq2seq_init chars0)) ≠ 0%nat).
  { apply char_indices_lt in Hc. lia. }
  destruct (encode_row_argmax chars0 commands max_cmd_len X i _ HX Hi HK)
    as (row & -> & Hargmax).
  rewrite bind_Ok. cbn beta. unfold decode. rewrite Hargmax, bind_Ok.
  cbn beta iota.
  destruct (encode_Ok_fits _ _ _ _ HX) as [Hm Hfits].
  assert (Hlen : (length (pad ++ c :: t') ≤ Z.to_nat max_cmd_len)%nat).
  { destruct (lookup_lt_is_Some_2 (pad ++ c :: t')
                (pred (length (pad ++ c :: t')))) as [x Hx].
    { rewrite length_app. simpl. lia. }
    assert (x ∈ chars0) as Hin.
    { apply (elem_of_chars chars0). rewrite Forall_forall in Ht. apply Ht.
      rewrite lookup_app_r in Hx by (rewrite length_app; simpl; lia).
      by eapply list_elem_of_lookup_2. }
    specialize (Hfits i _ _ x Hi Hx Hin). lia. }
  rewrite (tabulate_code_of chars0 _ _ Hlen), fmap_app.
  rewrite (class_of_blank chars0 pad Hpad), <-app_assoc.
  set (r := (Z.to_nat max_cmd_len - length (pad ++ c :: t'))%nat).
  pose proof (decode_classes_inverted chars0 (length pad) (c :: t') r c t' k c0
                eq_refl Ht Hc Hc0) as Hdec.
  rewrite app_nil_r in Hdec.
  replace (Z.of_nat (length pad + length (c :: t') + r)) with max_cmd_len
    in Hdec; [exact Hdec|].
  unfold r. rewrite length_app in *. lia.
Qed.

Lemma decode_row_inverted_witness :
  ∃ X, encode (Seq2seq_init (py "abc")) [py "$$cb"] 6 = Ok X
       ∧ (row ← np.getitem X 0;
          decode (Seq2seq_init (py "abc")) true row 6 true)
         = Ok (py "cbaa").
Proof.
  eexists. split; [vm_compute; reflexivity|].
  apply (decode_row_inverted (py "abc") [py "$$cb"] 6 _ 0%nat (py "$$")
           99%N (py "b") 1 97%N).
  - vm_compute. reflexivity.
  - reflexivity.
  - repeat constructor.
  - by_computation.
  - vm_compute. reflexivity.
  - vm_compute. reflexivity.
Defined.

Section codec_batches.
Context (chars0 : list N).
Local Abbreviation self := (Seq2seq_init chars0).

Lemma bool_eq_iff (a b : bool) : (a = true ↔ b = true) → a = b.
Proof. destruct a, b; intros [H1 H2]; auto. by symmetry; apply H1. Qed.

(** A batch that [encode] accepts is encoded to the array of its known
    characters. *)
Lemma encode_Ok_spec commands max_cmd_len X :
  encode self commands max_cmd_len = Ok X →
  ∃ f, X = tensor_of (length commands, Z.to_nat max_cmd_len,
                      length (chars self)) f
     ∧ ∀ i j k, f i j k = true ↔
         ∃ cmd c, commands !! i = Some cmd ∧ cmd !! j = Some c
                  ∧ chars self !! k = Some c.
Proof.
  intros HX. destruct (encode_Ok_fits _ _ _ _ HX) as [Hm Hfits].
  destruct (encode_fits chars0 commands max_cmd_len Hm Hfits) as (f & Hf & Hspec).
  rewrite HX in Hf. injection Hf as ->. eauto.
Qed.

Lemma lookup_zip_with_app (commands pads : list (list N)) i :
  length pads = length commands →
  zip_with app commands pads !! i
  = cmd ← commands !! i; pad ← pads !! i; Some (cmd ++ pad).
Proof.
  intros Hlen. rewrite lookup_zip_with.
  destruct (commands !! i); simpl; [|done]. by destruct (pads !! i).
Qed.

(** Appending characters outside the inventory moves no known character. *)
Lemma known_positions (commands pads : list (list N)) i j c :
  length pads = length commands →
  Forall (Forall (λ p, p ∉ chars0)) pads → c ∈ chars0 →
  (∃ cmd, zip_with app commands pads !! i = Some cmd ∧ cmd !! j = Some c)
  ↔ (∃ cmd, commands !! i = Some cmd ∧ cmd !! j = Some c).
Proof.
  intros Hlen Hpads Hc. rewrite lookup_zip_with_app by done. split.
  - intros (cmd' & Hi & Hj).
    destruct (commands !! i) as [cmd|] eqn:Hcmd; [|done]. simpl in Hi.
    destruct (pads !! i) as [pad|] eqn:Hpad; [|done]. simpl in Hi.
    injection Hi as <-. exists cmd. split; [done|].
    apply lookup_app_Some in Hj as [Hj|[_ Hj]]; [done|]. exfalso.
    rewrite Forall_forall in Hpads.
    specialize (Hpads pad (list_elem_of_lookup_2 _ _ _ Hpad)).
    rewrite Forall_forall in Hpads.
    by apply (Hpads c (list_elem_of_lookup_2 _ _ _ Hj)).
  - intros (cmd & Hi & Hj). rewrite Hi. simpl.
    destruct (lookup_lt_is_Some_2 pads i) as [pad Hpad].
    { rewrite Hlen. by eapply lookup_lt_Some. }
    rewrite Hpad. simpl. exists (cmd ++ pad). split; [done|].
    by apply lookup_app_l_Some.
Qed.

End codec_batches.

(** X3: the rows of a batch are encoded independently: in the array
    [encode] returns for a batch, row [i] is the row [encode] returns for
    the [i]-th string alone. *)
Theorem encode_rows_independent chars0 commands max_cmd_len X i s :
  let self := Seq2seq_init chars0 in
  encode self commands max_cmd_len = Ok X →
  commands !! i = Some s →
  ∃ X1, encode self [s] max_cmd_len = Ok X1
        ∧ np.getitem X i = np.getitem X1 0.
Proof.
  cbv zeta. intros HX Hi.
  destruct (encode_Ok_fits _ _ _ _ HX) as [Hm Hfits].
  destruct (encode_Ok_spec chars0 _ _ _ HX) as (f & -> & Hf).
  destruct (encode_fits chars0 [s] max_cmd_len Hm) as (f1 & Hf1 & Hspec1).
  { intros i' cmd j c Hi' Hj Hc. destruct i'; simplify_eq/=.
    by eapply (Hfits i). }
  eexists. split; [exact Hf1|].
  rewrite !getitem_tensor_of by (simpl; lia || by eapply lookup_lt_Some).
  f_equal. f_equal. apply tabulate_ext; intros j _.
  apply tabulate_ext; intros k _. apply bool_eq_iff.
  rewrite Hf, Hspec1. split.
  - intros (cmd & c & ? & ? & ?). simplify_eq. by exists s, c.
  - intros (cmd & c & ? & ? & ?). simplify_eq/=. by exists cmd, c.
Qed.

Lemma encode_rows_independent_witness :
  ∃ X X1, encode (Seq2seq_init (py "abc")) [py "ab"; py "c$a"] 3 = Ok X
          ∧ encode (Seq2seq_init (py "abc")) [py "c$a"] 3 = Ok X1
          ∧ np.getitem X 1 = np.getitem X1 0.
Proof.
  assert (∃ X, encode (Seq2seq_init (py "abc")) [py "ab"; py "c$a"] 3 = Ok X)
    as [X HX] by (eexists; vm_compute; reflexivity).
  destruct (encode_rows_independent (py "abc") [py "ab"; py "c$a"] 3 X
              1%nat (py "c$a") HX eq_refl) as (X1 & HX1 & Hrow).
  by exists X, X1.
Defined.

(** X4: padding with characters outside the inventory is invisible to
    [encode]: appending such characters to the strings of a batch changes
    neither the array returned nor the exception raised, even when the
    padded strings are longer than [max_cmd_len]. *)
Theorem encode_ignores_unknown_padding chars0 commands pads max_cmd_len :
  let self := Seq2seq_init chars0 in
  length pads = length commands →
  Forall (Forall (λ p, p ∉ chars self)) pads →
  encode self (zip_with app commands pads) max_cmd_len
  = encode self commands max_cmd_len.
Proof.
  cbv zeta. intros Hlen Hpads.
  assert (Hpads' : Forall (Forall (λ p, p ∉ chars0)) pads).
  { eapply Forall_impl; [exact Hpads|]. intros pad Hpad.
    eapply Forall_impl; [exact Hpad|]. intros p Hp.
    by rewrite <-(elem_of_chars chars0). }
  assert (Hfits : fits chars0 (zip_with app commands pads) max_cmd_len
                  ↔ fits chars0 commands max_cmd_len).
  { split; intros Hf i cmd j c Hi Hj Hc.
    - destruct (proj2 (known_positions chars0 commands pads i j c Hlen Hpads' Hc))
        as (cmd' & Hi' & Hj'); [by exists cmd|]. by eapply (Hf i cmd').
    - destruct (proj1 (known_positions chars0 commands pads i j c Hlen Hpads' Hc))
        as (cmd' & Hi' & Hj'); [by exists cmd|]. by eapply (Hf i cmd'). }
  destruct (encode (Seq2seq_init chars0) commands max_cmd_len) as [X|e] eqn:HX.
  - destruct (encode_Ok_fits _ _ _ _ HX) as [Hm Hf].
    destruct (encode_Ok_spec chars0 _ _ _ HX) as (f & -> & Hspec).
    destruct (encode_fits chars0 (zip_with app commands pads) max_cmd_len Hm)
      as (f' & -> & Hspec'); [by apply Hfits|].
    rewrite length_zip_with_l_eq by done. f_equal.
    apply tensor_of_ext. intros i j k. apply bool_eq_iff.
    rewrite Hspec, Hspec'. split.
    + intros (cmd & c & Hi & Hj & Hk).
      destruct (proj1 (known_positions chars0 commands pads i j c Hlen Hpads'
                         ltac:(apply (elem_of_chars chars0);
                               by eapply list_elem_of_lookup_2)))
        as (cmd' & ? & ?); [by exists cmd|]. by exists cmd', c.
    + intros (cmd & c & Hi & Hj & Hk).
      destruct (proj2 (known_positions chars0 commands pads i j c Hlen Hpads'
                         ltac:(apply (elem_of_chars chars0);
                               by eapply list_elem_of_lookup_2)))
        as (cmd' & ? & ?); [by exists cmd|]. by exists cmd', c.
  - destruct (encode (Seq2seq_init chars0) (zip_with app commands pads)
                max_cmd_len) as [X'|e'] eqn:HX'.
    + destruct (encode_Ok_fits _ _ _ _ HX') as [Hm Hf].
      apply Hfits in Hf.
      destruct (encode_fits chars0 commands max_cmd_len Hm Hf) as (f & Hf' & _).
      congruence.
    + apply encode_Raise_inv in HX, HX'. congruence.
Qed.

Lemma encode_ignores_unknown_padding_witness :
  encode (Seq2seq_init (py "ab")) [py "ab$$$"; py "b$"] 2
  = encode (Seq2seq_init (py "ab")) [py "ab"; py "b"] 2.
Proof.
  apply (encode_ignores_unknown_padding (py "ab") [py "ab"; py "b"]
           [py "$$$"; py "$"] 2).
  - reflexivity.
  - repeat constructor; by_computation.
Defined.

(** X5: with [reduction] false, [decode] reads class indices up to the
    last non-zero one and drops the zeros after it: on indices [cs]
    ending in a non-zero class, followed by any number of zeros, it
    returns the characters of [cs], or raises [KeyError] if one of them is
    not an index of the inventory.  [max_cmd_len] and [inverted] play no
    part. *)
Theorem decode_classes_trims_zeros chars0 cs k n max_cmd_len inverted :
  let self := Seq2seq_init chars0 in
  last cs = Some (S k) →
  decode self false (cs ++ replicate n 0%nat) max_cmd_len inverted
  = match mapM (λ x, chars self !! x) cs with
    | Some command => Ok command
    | None => Raise KeyError
    end.
Proof.
  cbv zeta. intros Hlast. unfold decode.
  assert (Hne : (0 < length cs)%nat) by (destruct cs; [done|simpl; lia]).
  rewrite last_lookup in Hlast.
  assert (Hin : pred (length cs) ∈ np.nonzero (cs ++ replicate n 0%nat)).
  { apply elem_of_nonzero. exists (S k). split; [|done].
    by rewrite lookup_app_l by lia. }
  rewrite decide_True.
  2:{ intros Hnil%nil_length_inv. rewrite Hnil in Hin.
      by apply elem_of_nil in Hin. }
  rewrite (amax_Ok _ (pred (length cs)) Hin).
  - rewrite bind_Ok. cbn beta. rewrite range_0.
    replace (S (pred (length cs))) with (length cs) by lia.
    pose proof (decode_loop_segment (Seq2seq_init chars0) [] cs
                  (replicate n 0%nat)) as Hloop.
    cbn [app length] in Hloop. rewrite Hloop.
    assert (mapM (λ x, indices_char (Seq2seq_init chars0) !! x) cs
            = mapM (λ x, chars (Seq2seq_init chars0) !! x) cs) as ->; [|done].
    clear. induction cs as [|x cs IH]; [done|].
    cbn [mapM]. by rewrite IH, indices_char_lookup.
  - intros j (x & Hj & Hx)%elem_of_nonzero.
    destruct (decide (j < length cs)%nat); [lia|]. exfalso. apply Hx.
    rewrite lookup_app_r in Hj by lia.
    by apply lookup_replicate in Hj as [-> _].
Qed.

Lemma decode_classes_trims_zeros_witness :
  decode (Seq2seq_init (py "abc")) false ([2; 0; 1] ++ replicate 3 0)%nat 6 false
  = Ok (py "cab")
  ∧ decode (Seq2seq_init (py "abc")) false ([2; 7; 1] ++ replicate 3 0)%nat 6 false
    = Raise KeyError.
Proof.
  split.
  - apply (decode_classes_trims_zeros (py "abc") [2; 0; 1]%nat 0 3 6 false).
    reflexivity.
  - apply (decode_classes_trims_zeros (py "abc") [2; 7; 1]%nat 0 3 6 false).
    reflexivity.
Defined.

(** ** Mistake injection: what a corruption can be *)

(** X6: [create_mistakes] returns the command unchanged whenever no
    prefix is found, whatever the level of noise, and whenever the level
    of noise is 0 or less, whatever the prefix; it then raises nothing. *)
Theorem create_mistakes_unchanged chars0 command vocab_trie level_of_noise rs :
  vocab_trie command = None ∨ (level_of_noise ≤ 0)%Qc →
  value (create_mistakes chars0 command vocab_trie level_of_noise rs)
  = Ok command.
Proof.
  intros [Hnone|Hlevel].
  - by rewrite create_mistakes_not_found.
  - destruct (create_mistakes_no_noise chars0 command vocab_trie
                level_of_noise rs Hlevel) as [rs' ->]. done.
Qed.

Lemma create_mistakes_unchanged_witness :
  value (create_mistakes (py "ab") (py "ls") (λ _, Some (py "ls")) 0%Qc
           (tape_of [1; 0; 0]%N)) = Ok (py "ls").
Proof.
  apply (create_mistakes_unchanged (py "ab") (py "ls") (λ _, Some (py "ls"))
           0%Qc (tape_of [1; 0; 0]%N)).
  right. by vm_compute.
Defined.

Lemma create_mistakes_edit chars0 command vocab_trie level_of_noise
    prefix rs result rs' :
  vocab_trie command = Some prefix →
  (length prefix ≤ length command)%nat →
  create_mistakes chars0 command vocab_trie level_of_noise rs
  = Ok (result, rs') →
  result = command
  ∨ (∃ l1 x c l2, command = l1 ++ [x] ++ l2 ∧ result = l1 ++ [c] ++ l2
                  ∧ c ∈ chars0 ∧ (length l1 < length prefix)%nat)
  ∨ (∃ l1 x l2, command = l1 ++ [x] ++ l2 ∧ result = l1 ++ l2
                ∧ (length l1 < length prefix)%nat)
  ∨ (∃ l1 c l2, command = l1 ++ l2 ∧ result = l1 ++ [c] ++ l2
                ∧ c ∈ chars0 ∧ (length l1 < length prefix)%nat)
  ∨ (∃ l1 x y l2, command = l1 ++ [x; y] ++ l2
                  ∧ result = l1 ++ [y; x] ++ l2).
Proof.
  intros Hsome Hprefix Hrun.
  destruct (decide (drawn_noise rs < level_of_noise)%Qc) as [Hnoise|Hquiet].
  2:{ rewrite (create_mistakes_quiet _ _ _ _ _ prefix) in Hrun by done.
      left. congruence. }
  assert (Hlevel : (0 < level_of_noise)%Qc).
  { eapply Qcle_lt_trans; [apply noise_of_nonneg|exact Hnoise]. }
  assert (Hmay : may_return chars0 command vocab_trie level_of_noise
                   (drawn_kind rs) result) by (by exists rs, rs').
  pose proof (drawn_kind_lt rs) as Hkind.
  destruct (drawn_kind rs) as [|[|[|[|kind]]]]; [| | | |lia].
  - apply (returns_swap _ _ _ _ prefix Hsome Hlevel) in Hmay
      as (p & c & Hp & Hc & ->).
    destruct (lookup_lt_is_Some_2 command p) as [x Hx]; [lia|].
    right; left. exists (take p command), x, c, (drop (S p) command).
    split_and!; [symmetry; by apply take_drop_middle|done|done|].
    rewrite length_take. lia.
  - apply (returns_deletion _ _ _ _ prefix Hsome Hlevel) in Hmay
      as (p & Hp & ->).
    destruct (lookup_lt_is_Some_2 command p) as [x Hx]; [lia|].
    do 2 right; left. exists (take p command), x, (drop (S p) command).
    split_and!; [symmetry; by apply take_drop_middle|done|].
    rewrite length_take. lia.
  - apply (returns_addition _ _ _ _ prefix Hsome Hlevel) in Hmay
      as (p & c & Hp & Hc & ->).
    do 3 right; left. exists (take p command), c, (drop p command).
    split_and!; [by rewrite take_drop|done|done|].
    rewrite length_take. lia.
  - apply (returns_transposition _ _ _ _ prefix Hsome Hlevel) in Hmay
      as (_ & p & x & y & Hp & Hx & Hy & ->).
    do 4 right. exists (take p command), x, y, (drop (S (S p)) command).
    split; [|done].
    rewrite <-(take_drop_middle command p x Hx) at 1. do 2 f_equal.
    simpl. f_equal. by apply drop_S.
Qed.

(** X7: every corruption is a single edit.  When the found prefix is no
    longer than the command, a result of [create_mistakes] is the command
    itself, or the command with one character inside the prefix replaced
    by a character of the inventory, or with one character inside the
    prefix removed, or with one character of the inventory inserted at a
    position of the prefix, or with two adjacent characters exchanged. *)
Theorem create_mistakes_single_edit chars0 command vocab_trie level_of_noise
    prefix rs result rs' :
  vocab_trie command = Some prefix →
  (length prefix ≤ length command)%nat →
  create_mistakes chars0 command vocab_trie level_of_noise rs
  = Ok (result, rs') →
  result = command
  ∨ (∃ l1 x c l2, command = l1 ++ [x] ++ l2 ∧ result = l1 ++ [c] ++ l2
                  ∧ c ∈ chars0 ∧ (length l1 < length prefix)%nat)
  ∨ (∃ l1 x l2, command = l1 ++ [x] ++ l2 ∧ result = l1 ++ l2
                ∧ (length l1 < length prefix)%nat)
  ∨ (∃ l1 c l2, command = l1 ++ l2 ∧ result = l1 ++ [c] ++ l2
                ∧ c ∈ chars0 ∧ (length l1 < length prefix)%nat)
  ∨ (∃ l1 x y l2, command = l1 ++ [x; y] ++ l2
                  ∧ result = l1 ++ [y; x] ++ l2).
Proof. apply create_mistakes_edit. Qed.

Lemma create_mistakes_single_edit_witness :
  let command := py "hello" in
  let result := py "helol" in
  result = command
  ∨ (∃ l1 x c l2, command = l1 ++ [x] ++ l2 ∧ result = l1 ++ [c] ++ l2
                  ∧ c ∈ py "ab" ∧ (length l1 < 3)%nat)
  ∨ (∃ l1 x l2, command = l1 ++ [x] ++ l2 ∧ result = l1 ++ l2
                ∧ (length l1 < 3)%nat)
  ∨ (∃ l1 c l2, command = l1 ++ l2 ∧ result = l1 ++ [c] ++ l2
                ∧ c ∈ py "ab" ∧ (length l1 < 3)%nat)
  ∨ (∃ l1 x y l2, command = l1 ++ [x; y] ++ l2
                  ∧ result = l1 ++ [y; x] ++ l2).
Proof.
  apply (create_mistakes_single_edit (py "ab") (py "hello")
           (λ _, Some (py "hel")) 1%Qc (py "hel")
           (tape_of [3; 0; 0; 3]%N) (py "helol")
           (advance (advance (advance (advance (tape_of [3; 0; 0; 3]%N)))))).
  - reflexivity.
  - simpl. lia.
  - by vm_compute.
Defined.

(** ** The batch generator: what a batch is made of *)

Section generator_batches.
Context (chars0 : list N) (file_delimiter : list N)
        (vocab_trie : list N → option (list N)) (gConfig : Config.t).
Local Abbreviation self := (Seq2seq_init chars0).
Local Abbreviation m := (Config.max_cmd_len gConfig).

Lemma choice_elem_of {A} (a : list A) rs x rs' :
  random.choice a rs = Ok (x, rs') → x ∈ a.
Proof.
  intros (i & Hi & _)%choice_Ok. by eapply list_elem_of_lookup_2.
Qed.

Lemma generator_sample_inv lines buffers rs buffers' rs' :
  generator_sample chars0 lines vocab_trie gConfig buffers rs
  = Ok (buffers', rs') →
  ∃ cm, sample_of chars0 lines vocab_trie gConfig cm
        ∧ buffers' = (buffers.1 ++ [cm.1], buffers.2 ++ [cm.2]).
Proof.
  unfold generator_sample.
  intros (line & rs1 & Hline%choice_elem_of & Hrun)%Rand_bind_Ok.
  apply Rand_bind_Ok in Hrun as ([mis cmd] & rs2 & Hgen & Hrun).
  unfold generate_input in Hgen.
  apply Rand_bind_Ok in Hgen as (corrupted & rs3 & Hcorr & Hgen).
  injection Hgen as <- <- <-. cbn [fst snd] in Hrun. cbv zeta in Hrun.
  apply Rand_bind_Ok in Hrun as (? & rs4 & [Hlen ->]%assert_inv & Hrun).
  injection Hrun as <- <-.
  exists (pad_to gConfig line,
          if Config.inverted gConfig then reverse (pad_to gConfig corrupted)
          else pad_to gConfig corrupted).
  split; [|done]. exists line, corrupted, rs1. split_and!; try done.
  by rewrite Hcorr.
Qed.

Lemma for_range_samples_inv lines k buffers rs buffers' rs' :
  for_range k (generator_sample chars0 lines vocab_trie gConfig) buffers rs
  = Ok (buffers', rs') →
  ∃ samples, length samples = k
             ∧ Forall (sample_of chars0 lines vocab_trie gConfig) samples
             ∧ buffers' = (buffers.1 ++ samples.*1, buffers.2 ++ samples.*2).
Proof.
  revert buffers rs. induction k as [|k IH]; intros buffers rs.
  - intros [= <- <-]. exists []. split_and!; [done|constructor|].
    destruct buffers. simpl. by rewrite !app_nil_r.
  - cbn [for_range].
    intros (b1 & rs1 & (cm & Hcm & ->)%generator_sample_inv & Hrun)%Rand_bind_Ok.
    apply IH in Hrun as (samples & Hlen & Hall & ->).
    exists (cm :: samples). split_and!; [simpl; lia|by constructor|].
    simpl. by rewrite <-!app_assoc.
Qed.

(** A batch the generator yields encodes [batch_size] samples: [y] the
    padded lines, [X] their padded corruptions. *)
Lemma generator_iteration_inv corpus rs X y rs' :
  generator_iteration self chars0 corpus file_delimiter vocab_trie gConfig rs
  = Ok ((X, y), rs') →
  ∃ samples,
    Z.of_nat (length samples) = Config.batch_size gConfig
    ∧ Forall (sample_of chars0 (corpus_lines corpus file_delimiter gConfig)
                vocab_trie gConfig) samples
    ∧ encode self samples.*2 m = Ok X
    ∧ encode self samples.*1 m = Ok y.
Proof.
  unfold generator_iteration. cbv zeta.
  intros (buffers & rs1 & Hloop & Hrun)%Rand_bind_Ok.
  apply for_range_samples_inv in Hloop as (samples & Hlen & Hall & ->).
  cbn [fst snd app] in Hrun.
  apply Rand_bind_Ok in Hrun as (? & rs2 & [_ ->]%assert_inv & Hrun).
  apply Rand_bind_Ok in Hrun as (? & rs3 & [Hbatch ->]%assert_inv & Hrun).
  apply Rand_bind_Ok in Hrun as (X' & rs4 & [HX ->]%lift_inv & Hrun).
  apply Rand_bind_Ok in Hrun as (y' & rs5 & [Hy ->]%lift_inv & Hrun).
  injection Hrun as -> -> ->.
  exists samples. unfold len in Hbatch. rewrite length_fmap in Hbatch.
  by split_and!.
Qed.

Lemma generator_loop_inv (P : ndarray3 * ndarray3 → Prop) corpus n t rs
    pairs rs' :
  (∀ t rs Xy rs',
     generator_iteration self chars0 (corpus t) file_delimiter vocab_trie
       gConfig rs = Ok (Xy, rs') → P Xy) →
  generator_loop self chars0 corpus file_delimiter vocab_trie gConfig t n rs
  = Ok (pairs, rs') →
  Forall P pairs.
Proof.
  intros HP. revert t rs pairs rs'.
  induction n as [|n IH]; intros t rs pairs rs'.
  - intros [= <- _]. constructor.
  - cbn [generator_loop].
    intros (Xy & rs1 & Hit & Hrun)%Rand_bind_Ok.
    apply Rand_bind_Ok in Hrun as (rest & rs2 & Hrest & Hrun).
    injection Hrun as <- _. constructor; [by eapply HP|by eapply IH].
Qed.

End generator_batches.

(** X8: with a level of noise of 0 (or less) and no inversion, the
    generator yields identity batches: in every pair, the input array [X]
    is the target array [y]. *)
Theorem generator_no_noise_identity chars0 corpus file_delimiter vocab_trie
    gConfig n rs pairs rs' :
  (Config.level_of_noise gConfig ≤ 0)%Qc →
  Config.inverted gConfig = false →
  generator chars0 corpus file_delimiter vocab_trie gConfig n rs
  = Ok (pairs, rs') →
  Forall (λ Xy, Xy.1 = Xy.2) pairs.
Proof.
  intros Hlevel Hinv. unfold generator. cbv zeta.
  apply generator_loop_inv. intros t rs0 [X y] rs0' Hit.
  apply generator_iteration_inv in Hit as (samples & _ & Hall & HX & Hy).
  assert (samples.*2 = samples.*1) as Heq; [|simpl; congruence].
  clear HX Hy. induction Hall as [|cm samples Hcm _ IH]; [done|].
  rewrite !fmap_cons, IH. f_equal.
  destruct Hcm as (line & corrupted & rs1 & _ & Hcorr & -> & -> & _).
  rewrite Hinv.
  destruct (create_mistakes_no_noise chars0 line vocab_trie
              (Config.level_of_noise gConfig) rs1 Hlevel) as [rs2 Hrun].
  rewrite Hrun in Hcorr. simpl in Hcorr. congruence.
Qed.

Lemma generator_no_noise_identity_witness :
  ∃ pairs rs',
    generator (py "abcls- ") (λ _, py "ls" ++ [10%N] ++ py "ab" ++ [10%N])
      (py "#") (λ command, Some (take 1 command))
      (Config.mk 4 (py "$") 0%Qc 2 false) 2
      (tape_of [0; 1; 0; 1; 0; 0; 1; 2; 0; 0; 3; 0]%N)
    = Ok (pairs, rs')
    ∧ Forall (λ Xy, Xy.1 = Xy.2) pairs.
Proof.
  eexists _, _. split; [vm_compute; reflexivity|].
  eapply (generator_no_noise_identity (py "abcls- ")
            (λ _, py "ls" ++ [10%N] ++ py "ab" ++ [10%N]) (py "#")
            (λ command, Some (take 1 command))
            (Config.mk 4 (py "$") 0%Qc 2 false) 2
            (tape_of [0; 1; 0; 1; 0; 0; 1; 2; 0; 0; 3; 0]%N)).
  - by vm_compute.
  - reflexivity.
  - vm_compute. reflexivity.
Defined.

(** X9: when the filter keeps no line of the corpus and [batch_size] is
    positive, the first pull of the generator raises [ValueError]: the
    sampling of a line is a [choice] on an empty list. *)
Theorem generator_empty_corpus_raises chars0 corpus file_delimiter vocab_trie
    gConfig n rs :
  corpus_lines (corpus 0%nat) file_delimiter gConfig = [] →
  0 < Config.batch_size gConfig →
  generator chars0 corpus file_delimiter vocab_trie gConfig (S n) rs
  = Raise ValueError.
Proof.
  intros Hlines Hbatch. unfold generator. cbv zeta. cbn [generator_loop].
  rewrite Rand_bind_eq. unfold generator_iteration. cbv zeta.
  rewrite Hlines, Rand_bind_eq.
  destruct (Z.to_nat (Config.batch_size gConfig)) as [|k] eqn:Hk; [lia|].
  cbn [for_range]. rewrite Rand_bind_eq. unfold generator_sample.
  by rewrite Rand_bind_eq, choice_nil.
Qed.

Lemma generator_empty_corpus_raises_witness :
  generator (py "ab") (λ _, py "abcdef" ++ [10%N]) (py "#") (λ _, None)
    (Config.mk 4 (py "$") 0%Qc 2 false) 1 (tape_of [])
  = Raise ValueError.
Proof.
  apply (generator_empty_corpus_raises (py "ab") (λ _, py "abcdef" ++ [10%N])
           (py "#") (λ _, None) (Config.mk 4 (py "$") 0%Qc 2 false) 0
           (tape_of [])).
  - by vm_compute.
  - simpl. lia.
Defined.

(** X10: a negative [batch_size] is caught by the assertion on the
    number of commands: the first pull raises [AssertionError], before
    anything is encoded. *)
Theorem generator_negative_batch_raises chars0 corpus file_delimiter
    vocab_trie gConfig n rs :
  Config.batch_size gConfig < 0 →
  generator chars0 corpus file_delimiter vocab_trie gConfig (S n) rs
  = Raise AssertionError.
Proof.
  intros Hbatch. unfold generator. cbv zeta. cbn [generator_loop].
  rewrite Rand_bind_eq. unfold generator_iteration. cbv zeta.
  rewrite Rand_bind_eq.
  replace (Z.to_nat (Config.batch_size gConfig)) with 0%nat by lia.
  cbn [for_range mret Rand_ret fst snd].
  rewrite Rand_bind_eq. unfold assert at 1.
  rewrite bool_decide_true by done. rewrite lift_Ok, Rand_bind_eq.
  unfold assert. rewrite bool_decide_false; [done|]. unfold len. simpl. lia.
Qed.

Lemma generator_negative_batch_raises_witness :
  generator (py "ab") (λ _, py "ab" ++ [10%N]) (py "#") (λ _, None)
    (Config.mk 4 (py "$") 0%Qc (-1) false) 1 (tape_of [])
  = Raise AssertionError.
Proof.
  apply (generator_negative_batch_raises (py "ab") (λ _, py "ab" ++ [10%N])
           (py "#") (λ _, None) (Config.mk 4 (py "$") 0%Qc (-1) false) 0
           (tape_of [])).
  simpl. lia.
Defined.

Section padding_facts.
Context (gConfig : Config.t).
Local Abbreviation m := (Config.max_cmd_len gConfig).



Lemma pad_to_length (s : list N) :
  len (pad_to gConfig s)
  = len s + Z.max 0 (m - len s) * len (Config.padding gConfig).
Proof.
  unfold pad_to, len. rewrite length_app, str_mul_length. lia.
Qed.



End padding_facts.



(** X12: the padding must be one character.  When the padding string has
    any other length and every line the filter keeps is shorter than
    [max_cmd_len], no pull of the generator with a positive [batch_size]
    yields: the assertion on the length of the padded command fails (or
    the corruption has raised before it). *)
Theorem generator_padding_must_be_one_char chars0 corpus file_delimiter
    vocab_trie gConfig n rs :
  length (Config.padding gConfig) ≠ 1%nat →
  (∀ line, line ∈ corpus_lines (corpus 0%nat) file_delimiter gConfig →
           len line < Config.max_cmd_len gConfig) →
  0 < Config.batch_size gConfig →
  ¬ ∃ pairs rs',
      generator chars0 corpus file_delimiter vocab_trie gConfig (S n) rs
      = Ok (pairs, rs').
Proof.
  intros Hpad Hlines Hbatch (pairs & rs' & Hrun).
  unfold generator in Hrun. cbv zeta in Hrun. cbn [generator_loop] in Hrun.
  apply Rand_bind_Ok in Hrun as ([X y] & rs1 & Hit & _).
  apply generator_iteration_inv in Hit as (samples & Hlen & Hall & _).
  destruct samples as [|cm samples]; [simpl in Hlen; lia|].
  apply Forall_cons in Hall
    as [(line & corrupted & rs2 & Hline & _ & _ & _ & Hm) _].
  specialize (Hlines line Hline). rewrite pad_to_length in Hm.
  unfold len in *. nia.
Qed.

Lemma generator_padding_must_be_one_char_witness :
  ¬ ∃ pairs rs',
      generator (py "ab") (λ _, py "ab" ++ [10%N]) (py "#") (λ _, None)
        (Config.mk 4 (py "<>") 0%Qc 1 false) 1 (tape_of [])
      = Ok (pairs, rs').
Proof.
  apply (generator_padding_must_be_one_char (py "ab")
           (λ _, py "ab" ++ [10%N]) (py "#") (λ _, None)
           (Config.mk 4 (py "<>") 0%Qc 1 false) 0 (tape_of [])).
  - simpl. lia.
  - intros line Hline. vm_compute in Hline.
    apply list_elem_of_singleton in Hline as ->. by vm_compute.
  - simpl. lia.
Defined.



Section mirrored.
Context (chars0 : list N).
Local Abbreviation self := (Seq2seq_init chars0).

Lemma reverse_tabulate {A} (n : nat) (g : nat → A) :
  reverse (tabulate n g) = tabulate n (λ j, g (n - S j)%nat).
Proof.
  apply list_eq; intros j. rewrite lookup_tabulate.
  destruct (decide (j < n)%nat) as [Hj|Hj].
  - rewrite reverse_lookup by (by rewrite length_tabulate).
    rewrite length_tabulate, lookup_tabulate, decide_True by lia. done.
  - apply lookup_ge_None. rewrite length_reverse, length_tabulate. lia.
Qed.

(** Encoding reversed strings of full width mirrors the rows. *)
Lemma encode_reverse commands max_cmd_len X y :
  Forall (λ s, len s = max_cmd_len) commands →
  encode self (reverse <$> commands) max_cmd_len = Ok X →
  encode self commands max_cmd_len = Ok y →
  X = mk_ndarray3 (shape3 y) (reverse <$> data3 y).
Proof.
  intros Hlen HX Hy.
  destruct (encode_Ok_spec chars0 _ _ _ HX) as (fX & -> & HfX).
  destruct (encode_Ok_spec chars0 _ _ _ Hy) as (fy & -> & Hfy).
  rewrite length_fmap. unfold tensor_of. cbn [shape3 data3 fst snd]. f_equal.
  rewrite fmap_tabulate. apply tabulate_ext; intros i Hi. cbn beta.
  change ((reverse ∘ ?g) i) with (reverse (g i)).
  unfold compose. rewrite reverse_tabulate. apply tabulate_ext; intros j Hj.
  apply tabulate_ext; intros k _. apply bool_eq_iff.
  rewrite HfX, Hfy.
  destruct (lookup_lt_is_Some_2 commands i Hi) as [cmd Hcmd].
  assert (length cmd = Z.to_nat max_cmd_len) as Hcmdlen.
  { rewrite Forall_forall in Hlen.
    specialize (Hlen cmd (list_elem_of_lookup_2 _ _ _ Hcmd)).
    unfold len in Hlen. lia. }
  rewrite list_lookup_fmap, Hcmd. cbn. split.
  - intros (cmd' & c & [= <-] & Hc & Hk). exists cmd, c. split; [done|].
    split; [|done].
    rewrite reverse_lookup in Hc by lia. by rewrite <-Hcmdlen.
  - intros (cmd' & c & ? & Hc & Hk). simplify_eq.
    exists (reverse cmd'), c. split; [done|]. split; [|done].
    rewrite reverse_lookup by lia. by rewrite Hcmdlen.
Qed.

End mirrored.

(** X14: with a level of noise of 0 (or less) and inversion, the input
    array of every pair is the target array mirrored along the position
    axis: [X[i, j, :] == y[i, max_cmd_len - 1 - j, :]]. *)
Theorem generator_no_noise_mirrored chars0 corpus file_delimiter vocab_trie
    gConfig n rs pairs rs' :
  (Config.level_of_noise gConfig ≤ 0)%Qc →
  Config.inverted gConfig = true →
  generator chars0 corpus file_delimiter vocab_trie gConfig n rs
  = Ok (pairs, rs') →
  Forall (λ Xy, Xy.1 = mk_ndarray3 (shape3 Xy.2) (reverse <$> data3 Xy.2))
    pairs.
Proof.
  intros Hlevel Hinv. unfold generator. cbv zeta.
  apply generator_loop_inv. intros t rs0 [X y] rs0' Hit.
  apply generator_iteration_inv in Hit as (samples & _ & Hall & HX & Hy).
  cbn [fst snd].
  apply (encode_reverse chars0 samples.*1 (Config.max_cmd_len gConfig));
    [| |exact Hy].
  - apply Forall_fmap. eapply Forall_impl; [exact Hall|].
    intros cm (line & corrupted & rs1 & _ & _ & Hcm1 & _ & Hlen).
    cbn. by rewrite Hcm1.
  - assert (samples.*2 = reverse <$> samples.*1) as <-; [|exact HX].
    clear HX Hy. induction Hall as [|cm samples Hcm _ IH]; [done|].
    rewrite !fmap_cons, IH. f_equal.
    destruct Hcm as (line & corrupted & rs1 & _ & Hcorr & -> & -> & _).
    rewrite Hinv.
    destruct (create_mistakes_no_noise chars0 line vocab_trie
                (Config.level_of_noise gConfig) rs1 Hlevel) as [rs2 Hrun].
    rewrite Hrun in Hcorr. simpl in Hcorr. congruence.
Qed.

Lemma generator_no_noise_mirrored_witness :
  ∃ pairs rs',
    generator (py "abcls- ") (λ _, py "ls" ++ [10%N] ++ py "ab" ++ [10%N])
      (py "#") (λ command, Some (take 1 command))
      (Config.mk 4 (py "$") 0%Qc 2 true) 1
      (tape_of [0; 1; 0; 1; 0; 0]%N)
    = Ok (pairs, rs')
    ∧ Forall (λ Xy, Xy.1 = mk_ndarray3 (shape3 Xy.2) (reverse <$> data3 Xy.2))
        pairs.
Proof.
  eexists _, _. split; [vm_compute; reflexivity|].
  eapply (generator_no_noise_mirrored (py "abcls- ")
            (λ _, py "ls" ++ [10%N] ++ py "ab" ++ [10%N]) (py "#")
            (λ command, Some (take 1 command))
            (Config.mk 4 (py "$") 0%Qc 2 true) 1
            (tape_of [0; 1; 0; 1; 0; 0]%N)).
  - by vm_compute.
  - reflexivity.
  - vm_compute. reflexivity.
Defined.

(** ** The inventory of a vocabulary: what it leaves out *)

Section vocabulary_lines.

(** A newline is the last character of the line that holds it. *)
Lemma readlines_newline_last text line i :
  line ∈ readlines text → line !! i = Some 10%N → S i = length line.
Proof.
  revert line i. induction text as [|c rest IH]; intros line i; simpl.
  { by intros ?%elem_of_nil. }
  destruct (c =? 10)%N eqn:Hc.
  - intros [->|Hin]%elem_of_cons; [|by apply IH].
    destruct i; [done|]. by intros ?.
  - apply N.eqb_neq in Hc.
    destruct (readlines rest) as [|line0 lines] eqn:Hrest.
    + intros ->%list_elem_of_singleton. destruct i; [by intros [= ->]|done].
    + intros [->|Hin]%elem_of_cons; [|apply IH; by right].
      destruct i as [|i]; [by intros [= ->]|]. cbn. intros Hi.
      f_equal. apply IH; [by left|done].
Qed.

Lemma lstrip_head s c s' : lstrip s = c :: s' → isspace c = false.
Proof.
  induction s as [|x s IH]; simpl; [done|].
  destruct (isspace x) eqn:Hx; [done|]. by intros [= <- _].
Qed.

Lemma rstrip_no_newline text line :
  line ∈ readlines text → 10%N ∉ rstrip line.
Proof.
  intros Hline Hin. unfold rstrip in Hin. rewrite elem_of_reverse in Hin.
  destruct (lstrip (reverse line)) as [|c s'] eqn:Hl.
  { by apply elem_of_nil in Hin. }
  pose proof (lstrip_head _ _ _ Hl) as Hc.
  apply elem_of_cons in Hin as [<-|Hin]; [done|].
  destruct (lstrip_suffix (reverse line)) as [k Hk]. rewrite Hl in Hk.
  apply list_elem_of_lookup in Hin as [j Hj].
  assert (reverse line !! (length k + S j)%nat = Some 10%N) as Hrev.
  { rewrite Hk, lookup_app_r by lia.
    replace (length k + S j - length k)%nat with (S j) by lia. done. }
  pose proof (lookup_lt_Some _ _ _ Hrev) as Hlt.
  rewrite length_reverse in Hlt.
  rewrite reverse_lookup in Hrev by done.
  apply (readlines_newline_last text) in Hrev; [lia|done].
Qed.

End vocabulary_lines.

(** X15: the newline is never a character of the inventory: [get_chars]
    strips the end of every line it reads, and a newline is nowhere else
    in a line. *)
Theorem get_chars_no_newline list_of_set vocab :
  set_iteration list_of_set → 10%N ∉ get_chars list_of_set vocab.
Proof.
  intros Hiter. unfold get_chars. rewrite (Hiter _), elem_of_elements.
  rewrite elem_of_accumulated.
  intros [Hempty|(line & Hline & Hin)].
  - by apply not_elem_of_empty in Hempty.
  - by apply (rstrip_no_newline vocab line).
Qed.

Lemma get_chars_no_newline_witness :
  10%N ∉ get_chars elements (py "ls -l" ++ [10%N] ++ py "cd" ++ [10%N]).
Proof.
  apply (get_chars_no_newline elements). intros s. reflexivity.
Defined.

(** ** Sampling predictions *)

Section sample_prediction_facts.
Context (model : ndarray3 → result (list (list nat))) (chars0 : list N)
        (X y : ndarray3) (max_cmd_len : Z).
Local Abbreviation self := (Seq2seq_init chars0).

(** Without inversion the variable [misspelled_command] stays unassigned,
    so no turn of the loop completes. *)
Lemma sample_prediction_turn_unbound vars out rs :
  var_misspelled_command vars = None →
  sample_prediction_turn model self X y max_cmd_len false (vars, out, rs)
  = match sample_prediction_draw model self X y max_cmd_len rs with
    | Raise e => Raises e
    | Ok _ => RaisesUnboundLocalError
    end.
Proof.
  intros Hvar. unfold sample_prediction_turn.
  destruct (sample_prediction_draw _ _ _ _ _ rs)
    as [[[[rowX true_command] correction] rs']|e]; [|done].
  cbn. by rewrite Hvar.
Qed.

Lemma fancy_index_zeros n d1 d2 ind :
  0 ≤ d1 → (ind < n)%nat → np.zeros n d1 d2 = Ok y →
  (rowy ← fancy_index y ind; np.getitem rowy 0)
  = Ok (zero_row (Z.to_nat d1) d2).
Proof.
  intros Hd1 Hind. unfold np.zeros. rewrite decide_False by lia.
  intros [= <-]. unfold fancy_index. cbn [data3 shape3 fst snd].
  rewrite lookup_replicate_2 by done. done.
Qed.

End sample_prediction_facts.

(** X16: without inversion, [sample_prediction] never returns.  Its
    [else] branch prints [misspelled_command], which only the other
    branch assigns: the first turn of the loop ends in
    [UnboundLocalError], unless sampling the row, the model or one of the
    two calls of [decode] has raised before. *)
Theorem sample_prediction_needs_inversion model chars0 X y max_cmd_len rs :
  sample_prediction model chars0 X y max_cmd_len false rs
  = match sample_prediction_draw model (Seq2seq_init chars0) X y
            max_cmd_len rs with
    | Raise e => Raises e
    | Ok _ => RaisesUnboundLocalError
    end
  ∧ ∀ r, sample_prediction model chars0 X y max_cmd_len false rs ≠ Returns r.
Proof.
  assert (Heq : sample_prediction model chars0 X y max_cmd_len false rs
                = match sample_prediction_draw model (Seq2seq_init chars0) X y
                          max_cmd_len rs with
                  | Raise e => Raises e
                  | Ok _ => RaisesUnboundLocalError
                  end).
  { unfold sample_prediction. cbv zeta. cbn [sample_prediction_loop].
    rewrite sample_prediction_turn_unbound by done.
    by destruct (sample_prediction_draw _ _ _ _ _ rs). }
  split; [exact Heq|]. intros r. rewrite Heq.
  by destruct (sample_prediction_draw _ _ _ _ _ rs).
Qed.

(** X17: a batch of empty targets stops [sample_prediction].  When the
    target array is all zero (every sampled command was made of padding
    only) and the input array has a row to sample, the call raises
    [ValueError] at the first [decode] of a target row, with or without
    inversion. *)
Theorem sample_prediction_empty_targets model chars0 X y max_cmd_len inverted
    rs n d1 d2 :
  (0 < (shape3 X).1.1)%nat → length (data3 X) = (shape3 X).1.1 →
  ((shape3 X).1.1 ≤ n)%nat → np.zeros n d1 d2 = Ok y →
  (∀ rowX, ∃ preds, model rowX = Ok preds) →
  sample_prediction model chars0 X y max_cmd_len inverted rs
  = Raises ValueError.
Proof.
  intros Hpos HX Hn Hy Hmodel.
  assert (Hd1 : 0 ≤ d1).
  { unfold np.zeros in Hy. case_decide; [done|lia]. }
  assert (Hdraw : sample_prediction_draw model (Seq2seq_init chars0) X y
                    max_cmd_len rs = Raise ValueError).
  { unfold sample_prediction_draw.
    rewrite Rand_bind_eq, randint_pos by lia.
    set (ind := N.to_nat _).
    assert (ind < (shape3 X).1.1)%nat as Hind.
    { unfold ind.
      match goal with |- context [(?raw `mod` ?k)%N] =>
        pose proof (N.mod_upper_bound raw k) end. lia. }
    destruct (lookup_lt_is_Some_2 (data3 X) ind) as [row Hrow]; [lia|].
    rewrite Rand_bind_eq. unfold fancy_index at 1. rewrite Hrow, lift_Ok.
    pose proof (fancy_index_zeros y n d1 d2 ind Hd1 ltac:(lia) Hy) as Hrowy.
    destruct (fancy_index y ind) as [rowy|e] eqn:Hfy; [|done].
    rewrite bind_Ok in Hrowy. cbn beta in Hrowy.
    rewrite Rand_bind_eq, lift_Ok.
    destruct (Hmodel (mk_ndarray3 (1%nat, (shape3 X).1.2, (shape3 X).2) [row]))
      as [preds ->].
    rewrite Rand_bind_eq, lift_Ok, Rand_bind_eq, Hrowy, lift_Ok.
    rewrite Rand_bind_eq.
    by rewrite (decode_zero_row chars0). }
  unfold sample_prediction. cbv zeta. cbn [sample_prediction_loop].
  unfold sample_prediction_turn. by rewrite Hdraw.
Qed.

Lemma sample_prediction_empty_targets_witness :
  ∃ X y,
    encode (Seq2seq_init (py "ab")) [py "ab"; py "b"] 3 = Ok X
    ∧ encode (Seq2seq_init (py "ab")) [py "$$$"; py "$$$"] 3 = Ok y
    ∧ sample_prediction (λ _, Ok [[1; 0; 0]%nat]) (py "ab") X y 3 true
        (tape_of [1]%N)
      = Raises ValueError.
Proof.
  eexists _, _. split; [vm_compute; reflexivity|].
  split; [vm_compute; reflexivity|].
  apply (sample_prediction_empty_targets (λ _, Ok [[1; 0; 0]%nat]) (py "ab")
           _ _ 3 true (tape_of [1]%N) 2 3 2).
  - simpl. lia.
  - reflexivity.
  - simpl. lia.
  - by vm_compute.
  - intros _. by eexists.
Defined.

(** ** The two dictionaries of a codec *)

(** X18: the dictionaries [char_indices] and [indices_char] built by the
    constructor are inverse of each other, defined exactly on the
    characters given and on the indices below their number, and the
    indices follow the order of the code points. *)
Theorem codec_dictionaries_inverse chars0 :
  let self := Seq2seq_init chars0 in
  (∀ c k, char_indices self !! c = Some k ↔ indices_char self !! k = Some c)
  ∧ (∀ c, is_Some (char_indices self !! c) ↔ c ∈ chars0)
  ∧ (∀ k, is_Some (indices_char self !! k) ↔ (k < size (set chars0))%nat)
  ∧ (∀ c1 c2 k1 k2,
       char_indices self !! c1 = Some k1 → char_indices self !! c2 = Some k2 →
       (k1 < k2)%nat ↔ (c1 < c2)%N).
Proof.
  cbv zeta. split_and!.
  - intros c k. by rewrite char_indices_lookup, indices_char_lookup.
  - apply char_indices_is_Some.
  - intros k. rewrite indices_char_lookup, <-alphabet_size.
    apply lookup_lt_is_Some.
  - intros c1 c2 k1 k2 H1%char_indices_lookup H2%char_indices_lookup.
    pose proof (chars_strictly_sorted chars0) as Hsorted.
    assert (Hmono : ∀ i j x y,
              chars (Seq2seq_init chars0) !! i = Some x →
              chars (Seq2seq_init chars0) !! j = Some y →
              (i < j)%nat → (x < y)%N).
    { clear H1 H2. induction Hsorted as [|z l _ IH Hz]; [done|].
      intros [|i] [|j] x y Hi Hj Hij; simplify_eq/=; [lia| |lia|].
      - rewrite Forall_forall in Hz. apply Hz.
        by eapply list_elem_of_lookup_2.
      - eapply (IH i j); [done..|lia]. }
    split.
    + intros Hlt. by eapply (Hmono k1 k2).
    + intros Hlt. destruct (decide (k1 < k2)%nat) as [|Hge]; [done|].
      destruct (decide (k1 = k2)) as [->|Hne]; [simplify_eq; lia|].
      assert (c2 < c1)%N by (eapply (Hmono k2 k1); [done..|lia]). lia.
Qed.

(** ** The failures of [create_mistakes] *)

Section create_mistakes_failures.

Lemma randint_Raise_inv high rs e :
  random.randint high rs = Raise e → e = ValueError ∧ high ≤ 0.
Proof.
  destruct (decide (high ≤ 0)) as [Hle|Hgt].
  - rewrite randint_nonpos by done. by intros [= <-].
  - by rewrite randint_pos by lia.
Qed.

Lemma choice_Raise_inv {A} (a : list A) rs e :
  random.choice a rs = Raise e → e = ValueError ∧ a = [].
Proof.
  destruct a as [|x a]; [rewrite choice_nil; by intros [= <-]|].
  destruct (choice_nonempty (x :: a) rs) as (y & _ & ->); done.
Qed.

End create_mistakes_failures.

(** X19: the failures of [create_mistakes].  The only exception it
    raises is [ValueError] (no subscript of the transposition is ever out
    of range), and it raises only when a prefix was found and the prefix
    is empty, or the inventory is empty, or the command has fewer than two
    characters. *)
Theorem create_mistakes_fails_only_on_degenerate_input chars command
    vocab_trie level_of_noise rs e :
  create_mistakes chars command vocab_trie level_of_noise rs = Raise e →
  e = ValueError
  ∧ ∃ prefix, vocab_trie command = Some prefix
              ∧ (prefix = [] ∨ chars = [] ∨ (length command < 2)%nat).
Proof.
  intros Hrun.
  destruct (vocab_trie command) as [prefix|] eqn:Hsome.
  2:{ by rewrite create_mistakes_not_found in Hrun. }
  assert (Hcond : prefix = [] ∨ chars = [] ∨ (length command < 2)%nat).
  { destruct prefix as [|p prefix]; [by left|].
    destruct chars as [|c chars]; [right; by left|].
    destruct (decide (length command < 2)%nat); [by do 2 right|].
    destruct (create_mistakes_returns (c :: chars) command vocab_trie
                level_of_noise rs) as (result & rs' & Hok).
    { rewrite Hsome. split_and!; [done..|lia]. }
    by rewrite Hok in Hrun. }
  split; [|by exists prefix].
  destruct (decide (drawn_noise rs < level_of_noise)%Qc) as [Hnoise|Hquiet].
  2:{ by rewrite (create_mistakes_quiet _ _ _ _ _ prefix) in Hrun. }
  rewrite (create_mistakes_applied _ _ _ _ _ prefix) in Hrun by done.
  rewrite Rand_bind_eq in Hrun.
  destruct (random.randint (len prefix) (advance (advance rs)))
    as [[char_pos rs1]|e1] eqn:Hpos.
  2:{ apply randint_Raise_inv in Hpos as [-> _]. by injection Hrun as <-. }
  destruct (drawn_kind rs) as [|[|[|k]]].
  - rewrite Rand_bind_eq in Hrun.
    destruct (random.choice chars rs1) as [[c rs2]|e2] eqn:Hc; [done|].
    apply choice_Raise_inv in Hc as [-> _]. by injection Hrun as <-.
  - done.
  - rewrite Rand_bind_eq in Hrun.
    destruct (random.choice chars rs1) as [[c rs2]|e2] eqn:Hc; [done|].
    apply choice_Raise_inv in Hc as [-> _]. by injection Hrun as <-.
  - rewrite Rand_bind_eq in Hrun.
    destruct (decide (len command - 1 ≤ 0)) as [Hle|Hgt].
    { rewrite randint_nonpos in Hrun by done. by injection Hrun as <-. }
    rewrite randint_pos in Hrun by lia. exfalso. revert Hrun.
    set (p := N.to_nat _).
    assert (Z.of_nat p < len command - 1) as Hp.
    { unfold p. simpl.
      match goal with |- context [(?raw `mod` ?n)%N] =>
        pose proof (N.mod_upper_bound raw n) end.
      unfold len in *. lia. }
    unfold len in Hp.
    destruct (lookup_lt_is_Some_2 command (p + 1)) as [y Hy]; [lia|].
    destruct (lookup_lt_is_Some_2 command p) as [x Hx]; [lia|].
    rewrite !Rand_bind_eq. unfold list_getitem. by rewrite Hy, Hx.
Qed.

Lemma create_mistakes_fails_only_on_degenerate_input_witness :
  ValueError = ValueError
  ∧ ∃ prefix, (λ _ : list N, Some (py "w")) (py "w") = Some prefix
              ∧ (prefix = [] ∨ py "ab" = [] ∨ (length (py "w") < 2)%nat).
Proof.
  apply (create_mistakes_fails_only_on_degenerate_input (py "ab") (py "w")
           (λ _, Some (py "w")) 1%Qc (tape_of [3; 0; 0]%N) ValueError).
  by vm_compute.
Defined.

(** ** Commands that fill the row *)

Section full_length.




End full_length.



(** ** When [encode] returns *)


(** ** The codec of a vocabulary *)

(** X22: the codec built from the characters of a vocabulary does not
    depend on the order in which Python iterates over the set of
    [get_chars]: two runs that list the set in different orders build the
    same inventory and the same dictionaries. *)
Theorem codec_independent_of_set_order list_of_set1 list_of_set2 vocab :
  set_iteration list_of_set1 → set_iteration list_of_set2 →
  Seq2seq_init (get_chars list_of_set1 vocab)
  = Seq2seq_init (get_chars list_of_set2 vocab).
Proof.
  intros Hiter1 Hiter2. apply Seq2seq_init_ext. intros c.
  unfold get_chars. by rewrite (Hiter1 _), (Hiter2 _).
Qed.

Lemma codec_independent_of_set_order_witness :
  Seq2seq_init (get_chars elements (py "ba" ++ [10%N] ++ py "c"))
  = Seq2seq_init
      (get_chars (λ s, reverse (elements s)) (py "ba" ++ [10%N] ++ py "c")).
Proof.
  apply (codec_independent_of_set_order elements (λ s, reverse (elements s))
           (py "ba" ++ [10%N] ++ py "c")).
  - intros s. reflexivity.
  - intros s. apply reverse_Permutation.
Defined.
